(** * A first-fit heap allocator over one mapped region (src/malloc.c)

    The C program keeps one global [Heap] whose [head] anchors a singly
    linked list of [Block] headers laid out inside a region obtained from
    [mmap].  This file embeds its functions in a small state monad over a
    store of headers and proves the properties of the allocator.

    Modelling choices.
    - [size_t] values and pointers are integers in [0, 2^word_bits);
      arithmetic on them is reduced with [wrap].  [NULL] is address 0.
    - [sizeof(Block)] depends on the ABI (24 on LP64, 12 on ILP32) and is
      a parameter of the development; [MIN_BLOCK_SIZE] is
      [sizeof(size_t)], that is [word_bits / 8].
    - The store maps an address to the header found there.  Each field is
      read and written on its own, in the order of the C statements, so
      aliasing between two header pointers behaves as in the program.
      Headers at different addresses are taken not to share bytes, and no
      access is checked against the mapping.
    - [mmap] is the operating system's answer to the one mapping request;
      it is a parameter too.
    - The two [while] loops walk [next] pointers; they take a bound on the
      number of iterations and report [OutOfFuel] when it is exceeded. *)

From Stdlib Require Import ZArith Lia String Ascii DecimalString.
From stdpp Require Import gmap list.

Local Open Scope Z_scope.

(** ** Data model *)

Module Block.
(** [typedef struct Block { size_t size; bool free; struct Block* next; }] *)
Record t : Type := mk { size : Z; free : bool; next : Z }.
End Block.

Module Heap.
(** [typedef struct { Block* head; size_t size; } Heap] *)
Record t : Type := mk { head : Z; size : Z }.
End Heap.

(** The machine state the program acts on: the global [heap], the headers
    in memory and the lines written to standard output so far. *)
Record State : Type := mkState {
  heap : Heap.t;
  mem : gmap Z Block.t;
  stdout : list string
}.

Definition NULL : Z := 0.

(** Memory that was never written reads as zero bytes. *)
Definition zero_block : Block.t := Block.mk 0 false NULL.

Definition cell (m : gmap Z Block.t) (p : Z) : Block.t :=
  default zero_block (m !! p).

(** ** The monad of the program: state, plus running out of loop budget *)

Inductive Res (A : Type) : Type :=
| Done (a : A) (s : State)
| OutOfFuel.
Arguments Done {A} a s.
Arguments OutOfFuel {A}.

Definition M (A : Type) : Type := State -> Res A.

Definition ret {A} (a : A) : M A := fun s => Done a s.

Definition bind {A B} (c : M A) (k : A -> M B) : M B :=
  fun s => match c s with
           | Done a s' => k a s'
           | OutOfFuel => OutOfFuel
           end.

Definition out_of_fuel {A} : M A := fun _ => OutOfFuel.

Notation "x <- c ;; k" := (bind c (fun x => k))
  (at level 100, c at next level, right associativity).
Notation "c ;;; k" := (bind c (fun _ => k))
  (at level 100, right associativity).

(** Field accesses [p->size], [p->free], [p->next]. *)
Definition load_size (p : Z) : M Z := fun s => Done (Block.size (cell (mem s) p)) s.
Definition load_free (p : Z) : M bool := fun s => Done (Block.free (cell (mem s) p)) s.
Definition load_next (p : Z) : M Z := fun s => Done (Block.next (cell (mem s) p)) s.

Definition upd_mem (f : gmap Z Block.t -> gmap Z Block.t) : M unit :=
  fun s => Done tt (mkState (heap s) (f (mem s)) (stdout s)).

Definition store_size (p v : Z) : M unit :=
  upd_mem (fun m => <[p := Block.mk v (Block.free (cell m p)) (Block.next (cell m p))]> m).
Definition store_free (p : Z) (v : bool) : M unit :=
  upd_mem (fun m => <[p := Block.mk (Block.size (cell m p)) v (Block.next (cell m p))]> m).
Definition store_next (p v : Z) : M unit :=
  upd_mem (fun m => <[p := Block.mk (Block.size (cell m p)) (Block.free (cell m p)) v]> m).

(** Accesses to the global [heap]. *)
Definition get_heap : M Heap.t := fun s => Done (heap s) s.
Definition set_heap_head (v : Z) : M unit :=
  fun s => Done tt (mkState (Heap.mk v (Heap.size (heap s))) (mem s) (stdout s)).
Definition set_heap_size (v : Z) : M unit :=
  fun s => Done tt (mkState (Heap.mk (Heap.head (heap s)) v) (mem s) (stdout s)).

(** [printf] of one line. *)
Definition printf (line : string) : M unit :=
  fun s => Done tt (mkState (heap s) (mem s) (stdout s ++ [line])).

(** ** Formatting of [%zX] *)

Definition hex_digit (d : Z) : ascii :=
  match d with
  | 0 => "0" | 1 => "1" | 2 => "2" | 3 => "3" | 4 => "4" | 5 => "5"
  | 6 => "6" | 7 => "7" | 8 => "8" | 9 => "9" | 10 => "A" | 11 => "B"
  | 12 => "C" | 13 => "D" | 14 => "E" | _ => "F"
  end%char.

Fixpoint hex_digits (n : nat) (z : Z) (acc : string) : string :=
  match n with
  | O => acc
  | S n' =>
      let acc' := String (hex_digit (z mod 16)) acc in
      if z / 16 =? 0 then acc' else hex_digits n' (z / 16) acc'
  end.

Definition hexX (z : Z) : string :=
  hex_digits (S (Z.to_nat (Z.log2 z))) z EmptyString.

(** ["%s start: 0x%zX, size: 0x%zX\n"] *)
Definition format_line (is_free : bool) (addr sz : Z) : string :=
  ((if is_free then "FREE" else "BUSY") ++ " start: 0x" ++ hexX addr
     ++ ", size: 0x" ++ hexX sz ++ String (ascii_of_nat 10) EmptyString)%string.

(** ** The program *)

Section Allocator.

(** Width in bits of [size_t] and of pointers. *)
Variable word_bits : Z.
(** [sizeof(Block)]. *)
Variable sizeof_Block : Z.
(** The address [mmap] returns for an anonymous private mapping of the
    given length ([MAP_FAILED] when the request is refused). *)
Variable mmap : Z -> Z.

Definition modulus : Z := 2 ^ word_bits.
Definition wrap (z : Z) : Z := z mod modulus.

Definition MAP_FAILED : Z := wrap (-1).

(** [#define MIN_BLOCK_SIZE sizeof(size_t)] *)
Definition MIN_BLOCK_SIZE : Z := word_bits / 8.

Definition init_heap (size : Z) : M unit :=
  let memory := mmap size in
  set_heap_head memory ;;;
  set_heap_size size ;;;
  h <- get_heap ;;
  let first := Heap.head h in
  store_size first (wrap (size - sizeof_Block)) ;;;
  store_free first true ;;;
  store_next first NULL.

(** The loop of [find_free_block]; [n] bounds the iterations. *)
Fixpoint find_loop (n : nat) (size curr : Z) : M Z :=
  if curr =? NULL then ret NULL
  else match n with
       | O => out_of_fuel
       | S n' =>
           f <- load_free curr ;;
           fits <- (if f then sz <- load_size curr ;; ret (size <=? sz)
                    else ret false) ;;
           if fits then ret curr
           else nx <- load_next curr ;; find_loop n' size nx
       end.

Definition find_free_block (n : nat) (size : Z) : M Z :=
  h <- get_heap ;;
  find_loop n size (Heap.head h).

Definition split_block (block left_size : Z) : M unit :=
  let new_block := wrap (block + sizeof_Block + left_size) in
  bs <- load_size block ;;
  store_size new_block (wrap (bs - sizeof_Block - left_size)) ;;;
  store_free new_block true ;;;
  store_size block left_size ;;;
  bn <- load_next block ;;
  store_next new_block bn ;;;
  store_next block new_block.

Definition malloc (n : nat) (size : Z) : M Z :=
  block <- find_free_block n size ;;
  if block =? NULL then ret NULL
  else
    bs <- load_size block ;;
    (if wrap (size + sizeof_Block + MIN_BLOCK_SIZE) <=? bs
     then split_block block size else ret tt) ;;;
    store_free block false ;;;
    ret (wrap (block + sizeof_Block)).

(** The loop of [print_heap]. *)
Fixpoint print_loop (n : nat) (curr : Z) : M unit :=
  if curr =? NULL then ret tt
  else match n with
       | O => out_of_fuel
       | S n' =>
           f <- load_free curr ;;
           sz <- load_size curr ;;
           printf (format_line f curr sz) ;;;
           nx <- load_next curr ;;
           print_loop n' nx
       end.

(** [print_heap(Heap* heap)], applied to the pointed-to structure. *)
Definition print_heap (n : nat) (h : Heap.t) : M unit :=
  print_loop n (Heap.head h).

End Allocator.

(** ** Shape of the heap *)

(** [lseg m p l z]: following [next] from [p] visits exactly the headers
    [l], in this order, and then arrives at [z]. *)
Fixpoint lseg (m : gmap Z Block.t) (p : Z) (l : list Z) (z : Z) : Prop :=
  match l with
  | [] => p = z
  | b :: l' => b = p /\ p <> NULL /\ lseg m (Block.next (cell m p)) l' z
  end.

(** The block list of a heap: the headers from [p] up to the terminal
    block, whose [next] is [NULL]. *)
Definition chain (m : gmap Z Block.t) (p : Z) (l : list Z) : Prop :=
  lseg m p l NULL.

(** The same walk as a function. *)
Fixpoint blocks_from (n : nat) (m : gmap Z Block.t) (p : Z) : option (list Z) :=
  if p =? NULL then Some []
  else match n with
       | O => None
       | S n' => match blocks_from n' m (Block.next (cell m p)) with
                 | Some l => Some (p :: l)
                 | None => None
                 end
       end.

(** The test of [find_free_block] on one block. *)
Definition fits (m : gmap Z Block.t) (sz b : Z) : bool :=
  Block.free (cell m b) && (sz <=? Block.size (cell m b)).

(** First block of [l] passing the test, [NULL] when there is none. *)
Definition first_fit (m : gmap Z Block.t) (sz : Z) (l : list Z) : Z :=
  match List.find (fits m sz) l with
  | Some b => b
  | None => NULL
  end.

(** Payload sizes of the free blocks of [l], in list order. *)
Definition free_sizes (m : gmap Z Block.t) (l : list Z) : list Z :=
  map (fun b => Block.size (cell m b))
      (List.filter (fun b => Block.free (cell m b)) l).

(** The lines a heap walk prints for the blocks [l]. *)
Definition report (m : gmap Z Block.t) (l : list Z) : list string :=
  map (fun b => format_line (Block.free (cell m b)) b (Block.size (cell m b))) l.

(** Payload bytes still available: the sizes of the free blocks of [l],
    added up. *)
Definition free_bytes (m : gmap Z Block.t) (l : list Z) : Z :=
  foldr (fun b acc =>
           (if Block.free (cell m b) then Block.size (cell m b) else 0) + acc)
        0 l.

Section Shape.

Variable word_bits : Z.
Variable sizeof_Block : Z.
Variable mmap : Z -> Z.

(** [seg m a l e]: the blocks [l], each a header followed by its payload,
    lie back to back from address [a] to address [e]. *)
Fixpoint seg (m : gmap Z Block.t) (a : Z) (l : list Z) (e : Z) : Prop :=
  match l with
  | [] => a = e
  | b :: l' =>
      b = a /\ 0 <= Block.size (cell m a)
      /\ seg m (a + sizeof_Block + Block.size (cell m a)) l' e
  end.

(** Bytes accounted for by the blocks [l]: header plus payload of each. *)
Definition coverage (m : gmap Z Block.t) (l : list Z) : Z :=
  foldr (fun b acc => sizeof_Block + Block.size (cell m b) + acc) 0 l.

(** A mapping of [total] bytes at [base] that lies inside the address
    space: it does not start at [NULL] and ends more than
    [MIN_BLOCK_SIZE] bytes below the top. *)
Definition mapping_ok (base total : Z) : Prop :=
  0 < base /\ base + total + MIN_BLOCK_SIZE word_bits < modulus word_bits.

(** The data-model invariant: the block list [l] of the heap is not
    empty, is linked from [head] to [NULL], and tiles the [total] bytes
    of the mapping. *)
Definition heap_shape (total : Z) (s : State) (l : list Z) : Prop :=
  l <> []
  /\ mapping_ok (Heap.head (heap s)) total
  /\ chain (mem s) (Heap.head (heap s)) l
  /\ seg (mem s) (Heap.head (heap s)) l (Heap.head (heap s) + total).

(** States the program reaches: [init_heap total] run once, then any
    number of calls of [malloc] that return. *)
Inductive reachable (total : Z) : State -> Prop :=
| reach_init s0 s :
    init_heap word_bits sizeof_Block mmap total s0 = Done tt s ->
    reachable total s
| reach_malloc s n sz p s' :
    reachable total s ->
    0 <= sz < modulus word_bits ->
    malloc word_bits sizeof_Block n sz s = Done p s' ->
    reachable total s'.

(** [malloc_steps s s']: the program gets from [s] to [s'] by calls of
    [malloc] that return, none at all included. *)
Inductive malloc_steps : State -> State -> Prop :=
| steps_done s : malloc_steps s s
| steps_malloc s n sz p s1 s2 :
    0 <= sz < modulus word_bits ->
    malloc word_bits sizeof_Block n sz s = Done p s1 ->
    malloc_steps s1 s2 ->
    malloc_steps s s2.

End Shape.

(** ** The demonstration driver *)

(** [%d] *)
Definition decimal (z : Z) : string := NilZero.string_of_int (Z.to_int z).

(** ["%d, %d\n\n"] *)
Definition format_pair (x y : Z) : string :=
  (decimal x ++ ", " ++ decimal y
     ++ String (ascii_of_nat 10) (String (ascii_of_nat 10) EmptyString))%string.

(** The [int] found at an address of payload memory. *)
Definition load_int (ints : gmap Z Z) (p : Z) : Z := default 0 (ints !! p).

Section Driver.

Variable word_bits : Z.
Variable sizeof_Block : Z.
Variable mmap : Z -> Z.
(** [sizeof(int)]. *)
Variable sizeof_int : Z.

(** [main].  Only [main] touches payload memory, through the two [int]
    pointers it got from [malloc]; the [int]s it stores are kept in a map
    from address to value that [main] threads through its statements.
    [n] bounds every heap walk. *)
Definition main (n : nat) : M Z :=
  init_heap word_bits sizeof_Block mmap 65536 ;;;
  h <- get_heap ;;
  print_heap n h ;;;
  printf (String (ascii_of_nat 10) EmptyString) ;;;
  some_int <- malloc word_bits sizeof_Block n sizeof_int ;;
  another_int <- malloc word_bits sizeof_Block n sizeof_int ;;
  let ints : gmap Z Z := <[some_int := 3]> ∅ in
  h <- get_heap ;;
  print_heap n h ;;;
  printf (String (ascii_of_nat 10) EmptyString) ;;;
  let ints : gmap Z Z := <[another_int := 7]> ints in
  printf (format_pair (load_int ints some_int) (load_int ints another_int)) ;;;
  h <- get_heap ;;
  print_heap n h ;;;
  ret 0.

End Driver.

(** ** Concrete heaps on LP64 (64-bit words, 24-byte headers) *)

Module LP64.

Definition word_bits : Z := 64.
Definition sizeof_Block : Z := 24.

(** A mapping request answered with the page at 0x1000. *)
Definition mmap_page (_ : Z) : Z := 4096.
(** A mapping request that is refused. *)
Definition mmap_refused (_ : Z) : Z := MAP_FAILED word_bits.

Definition blank : State := mkState (Heap.mk 0 0) ∅ [].

(** Outcome state of a computation, [blank] when it ran out of budget. *)
Definition state_of {A} (r : Res A) : State :=
  match r with Done _ s => s | OutOfFuel => blank end.

(** [init_heap(0x10000)]. *)
Definition fresh : State :=
  state_of (init_heap word_bits sizeof_Block mmap_page 65536 blank).

(** [init_heap(8)]: fewer bytes than one header. *)
Definition tiny : State :=
  state_of (init_heap word_bits sizeof_Block mmap_page 8 blank).

(** Three free blocks of payload sizes 16, 4096 and 32, back to back
    from 0x1000, with a busy block of 8 bytes between the first two. *)
Definition three_free : State :=
  mkState (Heap.mk 4096 4248)
    (<[4096 := Block.mk 16 true 4136]>
     (<[4136 := Block.mk 8 false 4168]>
      (<[4168 := Block.mk 4096 true 8288]>
       (<[8288 := Block.mk 32 true NULL]> ∅))))
    [].

(** [init_heap(0x10000)] answered with [MAP_FAILED]. *)
Definition refused : State :=
  state_of (init_heap word_bits sizeof_Block mmap_refused 65536 blank).

(** [malloc(0xFFE8)] on [fresh]: a request for the whole payload. *)
Definition exact_fit : State :=
  state_of (malloc word_bits sizeof_Block 1 65512 fresh).

(** [malloc((size_t)-24)] on [tiny]. *)
Definition looped : State :=
  state_of (malloc word_bits sizeof_Block 1 (2 ^ 64 - 24) tiny).

(** The two calls [malloc(sizeof(int))] of [main]. *)
Definition one_alloc : State :=
  state_of (malloc word_bits sizeof_Block 1 4 fresh).
Definition two_allocs : State :=
  state_of (malloc word_bits sizeof_Block 2 4 one_alloc).

End LP64.

(** ** Basic facts about the store and the block list *)

Lemma cell_insert_eq (m : gmap Z Block.t) (p : Z) (b : Block.t) :
  cell (<[p := b]> m) p = b.
Proof. unfold cell. by rewrite lookup_insert_eq. Qed.

Lemma cell_insert_ne (m : gmap Z Block.t) (p q : Z) (b : Block.t) :
  p <> q -> cell (<[p := b]> m) q = cell m q.
Proof. intros Hne. unfold cell. by rewrite lookup_insert_ne. Qed.

Lemma cell_insert (m : gmap Z Block.t) (p q : Z) (b : Block.t) :
  cell (<[p := b]> m) q = if decide (p = q) then b else cell m q.
Proof.
  destruct (decide (p = q)) as [->|Hne].
  - apply cell_insert_eq.
  - by apply cell_insert_ne.
Qed.

Lemma lseg_app (m : gmap Z Block.t) (l1 l2 : list Z) (p z : Z) :
  lseg m p (l1 ++ l2) z <->
  exists c, lseg m p l1 c /\ lseg m c l2 z.
Proof.
  revert p. induction l1 as [|b l1 IH]; intros p; simpl.
  - split.
    + intros H. by exists p.
    + intros (c & -> & H). exact H.
  - rewrite IH. split.
    + intros (-> & Hp & c & H1 & H2). exists c. auto.
    + intros (c & (-> & Hp & H1) & H2). eauto.
Qed.

(** Headers outside [l] do not matter to the walk over [l]. *)
Lemma lseg_frame (m m' : gmap Z Block.t) (l : list Z) (p z : Z) :
  (forall b, b ∈ l -> Block.next (cell m' b) = Block.next (cell m b)) ->
  lseg m p l z -> lseg m' p l z.
Proof.
  revert p. induction l as [|b l IH]; intros p Hag; simpl; [done|].
  intros (-> & Hp & H). split; [done|]. split; [done|].
  rewrite Hag by set_solver. apply IH; [|done].
  intros b Hb. apply Hag. set_solver.
Qed.

Lemma lseg_unique (m : gmap Z Block.t) (l1 l2 : list Z) (p : Z) :
  lseg m p l1 NULL -> lseg m p l2 NULL -> l1 = l2.
Proof.
  revert l2 p. induction l1 as [|b l1 IH]; intros [|b2 l2] p; simpl.
  - done.
  - intros -> (_ & Hp & _). done.
  - intros (_ & Hp & _) ->. done.
  - intros (-> & _ & H1) (-> & _ & H2). f_equal. eauto.
Qed.

Lemma lseg_nonnull (m : gmap Z Block.t) (l : list Z) (p z b : Z) :
  lseg m p l z -> b ∈ l -> b <> NULL.
Proof.
  revert p. induction l as [|x l IH]; intros p; simpl.
  - intros _ Hb. by apply elem_of_nil in Hb.
  - intros (-> & Hp & H) Hb. apply elem_of_cons in Hb as [->|Hb]; eauto.
Qed.

Lemma blocks_from_chain (m : gmap Z Block.t) (l : list Z) (n : nat) (p : Z) :
  chain m p l -> (length l <= n)%nat -> blocks_from n m p = Some l.
Proof.
  unfold chain. revert n p. induction l as [|b l IH]; intros n p; simpl.
  - intros -> _. by destruct n.
  - intros (-> & Hp & H) Hn. destruct n as [|n]; [lia|]. simpl.
    apply Z.eqb_neq in Hp. rewrite Hp. rewrite (IH n); [done|done|lia].
Qed.

(** What [List.find] returns: the first element passing the test. *)
Lemma find_first {A} (f : A -> bool) (l : list A) :
  match List.find f l with
  | Some x => exists l1 l2, l = l1 ++ x :: l2 /\ f x = true
                            /\ forall y, y ∈ l1 -> f y = false
  | None => forall y, y ∈ l -> f y = false
  end.
Proof.
  induction l as [|a l IH]; simpl.
  - intros y Hy. by apply elem_of_nil in Hy.
  - destruct (f a) eqn:Ha.
    + exists [], l. split; [done|]. split; [done|].
      intros y Hy. by apply elem_of_nil in Hy.
    + destruct (List.find f l) as [x|].
      * destruct IH as (l1 & l2 & -> & Hx & Hl1).
        exists (a :: l1), l2. split; [done|]. split; [done|].
        intros y Hy. apply elem_of_cons in Hy as [->|Hy]; auto.
      * intros y Hy. apply elem_of_cons in Hy as [->|Hy]; auto.
Qed.

Section Properties.

Variable word_bits : Z.
Variable sizeof_Block : Z.
Variable mmap : Z -> Z.

Hypothesis word_bits_nonneg : 0 <= word_bits.
Hypothesis header_fits : 0 < sizeof_Block < modulus word_bits.

Local Abbreviation modulus := (modulus word_bits).
Local Abbreviation wrap := (wrap word_bits).
Local Abbreviation MIN_BLOCK_SIZE := (MIN_BLOCK_SIZE word_bits).
Local Abbreviation init_heap := (init_heap word_bits sizeof_Block mmap).
Local Abbreviation split_block := (split_block word_bits sizeof_Block).
Local Abbreviation malloc := (malloc word_bits sizeof_Block).
Local Abbreviation seg := (seg sizeof_Block).
Local Abbreviation coverage := (coverage sizeof_Block).
Local Abbreviation mapping_ok := (mapping_ok word_bits).
Local Abbreviation heap_shape := (heap_shape word_bits sizeof_Block).
Local Abbreviation reachable := (reachable word_bits sizeof_Block mmap).

Lemma modulus_pos : 0 < modulus.
Proof. unfold modulus. by apply Z.pow_pos_nonneg. Qed.

Lemma wrap_small (z : Z) : 0 <= z < modulus -> wrap z = z.
Proof. intros H. unfold wrap. by apply Z.mod_small. Qed.

Lemma wrap_range (z : Z) : 0 <= wrap z < modulus.
Proof. unfold wrap. apply Z.mod_pos_bound, modulus_pos. Qed.

Lemma MIN_BLOCK_SIZE_nonneg : 0 <= MIN_BLOCK_SIZE.
Proof. unfold MIN_BLOCK_SIZE. apply Z.div_pos; lia. Qed.

(** *** The search loop *)

(** On a list that ends in [NULL] the loop never writes, and with a
    budget of one iteration per block it returns the first fit. *)
Lemma find_loop_chain (s : State) (sz : Z) (l : list Z) :
  forall (n : nat) (p : Z),
    chain (mem s) p l ->
    (find_loop n sz p s = Done (first_fit (mem s) sz l) s)
    \/ (find_loop n sz p s = OutOfFuel /\ (n < length l)%nat).
Proof.
  unfold chain, first_fit.
  induction l as [|b l IH]; intros n p; simpl.
  - intros ->. left. by destruct n.
  - intros (-> & Hp & H).
    apply Z.eqb_neq in Hp.
    destruct n as [|n]; simpl; rewrite Hp.
    + right. split; [done|lia].
    + unfold bind, load_free, load_size, load_next, ret, fits. simpl.
      destruct (Block.free (cell (mem s) p)); simpl.
      * destruct (sz <=? Block.size (cell (mem s) p)); [by left|].
        destruct (IH n _ H) as [E|[E Hn]]; [by left|right].
        split; [done|lia].
      * destruct (IH n _ H) as [E|[E Hn]]; [by left|right].
        split; [done|lia].
Qed.

Lemma find_free_block_chain (s : State) (sz : Z) (l : list Z) (n : nat) :
  chain (mem s) (Heap.head (heap s)) l ->
  (length l <= n)%nat ->
  find_free_block n sz s = Done (first_fit (mem s) sz l) s.
Proof.
  intros Hc Hn. unfold find_free_block, bind, get_heap.
  destruct (find_loop_chain s sz l n _ Hc) as [E|[_ Hlt]]; [done|lia].
Qed.

Lemma find_free_block_done (s s' : State) (sz r : Z) (l : list Z) (n : nat) :
  chain (mem s) (Heap.head (heap s)) l ->
  find_free_block n sz s = Done r s' ->
  s' = s /\ r = first_fit (mem s) sz l.
Proof.
  intros Hc. unfold find_free_block, bind, get_heap.
  destruct (find_loop_chain s sz l n _ Hc) as [E|[E _]]; rewrite E.
  - intros [= <- <-]. done.
  - done.
Qed.

(** The first fit is [NULL] or a block of the list that passes the test
    while none before it does. *)
Lemma first_fit_spec (m : gmap Z Block.t) (sz p : Z) (l : list Z) :
  chain m p l ->
  (first_fit m sz l = NULL /\ forall b, b ∈ l -> fits m sz b = false)
  \/ (first_fit m sz l <> NULL /\
      exists l1 l2, l = l1 ++ first_fit m sz l :: l2
                    /\ fits m sz (first_fit m sz l) = true
                    /\ forall b, b ∈ l1 -> fits m sz b = false).
Proof.
  intros Hc. unfold first_fit.
  pose proof (find_first (fits m sz) l) as Hf.
  destruct (List.find (fits m sz) l) as [x|].
  - right. destruct Hf as (l1 & l2 & -> & Hx & Hl1). split.
    + eapply lseg_nonnull; [exact Hc|].
      apply elem_of_app. right. apply elem_of_cons. by left.
    + eauto.
  - left. done.
Qed.

(** *** Splitting *)

(** The headers after [split_block], field by field.  The new header
    must not be the block's own, which is all the statement asks. *)
Lemma split_block_cells (s : State) (block left_size : Z) :
  wrap (block + sizeof_Block + left_size) <> block ->
  exists s',
    split_block block left_size s = Done tt s'
    /\ heap s' = heap s /\ stdout s' = stdout s
    /\ cell (mem s') block
       = Block.mk left_size (Block.free (cell (mem s) block))
           (wrap (block + sizeof_Block + left_size))
    /\ cell (mem s') (wrap (block + sizeof_Block + left_size))
       = Block.mk
           (wrap (Block.size (cell (mem s) block) - sizeof_Block - left_size))
           true (Block.next (cell (mem s) block))
    /\ forall x, x <> block ->
                 x <> wrap (block + sizeof_Block + left_size) ->
                 cell (mem s') x = cell (mem s) x.
Proof.
  intros Hne. eexists. split; [reflexivity|]. simpl.
  set (new := wrap (block + sizeof_Block + left_size)) in *.
  split; [done|]. split; [done|].
  repeat split.
  - rewrite !cell_insert. repeat case_decide; simpl; congruence.
  - rewrite !cell_insert. repeat case_decide; simpl; congruence.
  - intros x Hx1 Hx2. rewrite !cell_insert.
    repeat case_decide; simpl; congruence.
Qed.

(** The stores of [block->free = false]. *)
Lemma store_free_cells (s : State) (block : Z) (v : bool) :
  exists s',
    store_free block v s = Done tt s'
    /\ heap s' = heap s /\ stdout s' = stdout s
    /\ cell (mem s') block
       = Block.mk (Block.size (cell (mem s) block)) v
           (Block.next (cell (mem s) block))
    /\ forall x, x <> block -> cell (mem s') x = cell (mem s) x.
Proof.
  eexists. split; [reflexivity|]. simpl. repeat split.
  - by rewrite cell_insert_eq.
  - intros x Hx. by rewrite cell_insert_ne.
Qed.

(** [malloc] unfolded after the search has returned [r]. *)
Lemma malloc_after_find (s : State) (n : nat) (sz r : Z) :
  find_free_block n sz s = Done r s ->
  malloc n sz s =
  (if r =? NULL then ret NULL
   else
     bs <- load_size r ;;
     (if wrap (sz + sizeof_Block + MIN_BLOCK_SIZE) <=? bs
      then split_block r sz else ret tt) ;;;
     store_free r false ;;;
     ret (wrap (r + sizeof_Block))) s.
Proof.
  intros Hf. unfold malloc at 1, bind at 1. by rewrite Hf.
Qed.

(** *** Blocks lying back to back *)

Lemma seg_app (m : gmap Z Block.t) (l1 l2 : list Z) (a e : Z) :
  seg m a (l1 ++ l2) e <-> exists c, seg m a l1 c /\ seg m c l2 e.
Proof.
  revert a. induction l1 as [|b l1 IH]; intros a; simpl.
  - split.
    + intros H. by exists a.
    + intros (c & -> & H). exact H.
  - rewrite IH. split.
    + intros (-> & Hs & c & H1 & H2). exists c. auto.
    + intros (c & (-> & Hs & H1) & H2). eauto.
Qed.

Lemma seg_frame (m m' : gmap Z Block.t) (l : list Z) (a e : Z) :
  (forall b, b ∈ l -> Block.size (cell m' b) = Block.size (cell m b)) ->
  seg m a l e -> seg m' a l e.
Proof.
  revert a. induction l as [|b l IH]; intros a Hag; simpl; [done|].
  intros (-> & Hs & H).
  assert (Block.size (cell m' a) = Block.size (cell m a)) as E.
  { apply Hag. apply elem_of_cons. by left. }
  rewrite E. split; [done|]. split; [done|].
  apply IH; [|done]. intros b Hb. apply Hag. apply elem_of_cons. by right.
Qed.

Lemma seg_le (m : gmap Z Block.t) (l : list Z) (a e : Z) :
  seg m a l e -> a <= e.
Proof.
  revert a. induction l as [|b l IH]; intros a; simpl.
  - intros ->. lia.
  - intros (_ & Hs & H). apply IH in H. lia.
Qed.

(** Every block of a segment lies inside it, header and payload. *)
Lemma seg_bounds (m : gmap Z Block.t) (l : list Z) (a e b : Z) :
  seg m a l e -> b ∈ l ->
  a <= b /\ 0 <= Block.size (cell m b)
  /\ b + sizeof_Block + Block.size (cell m b) <= e.
Proof.
  revert a. induction l as [|x l IH]; intros a; simpl.
  - intros _ Hb. by apply elem_of_nil in Hb.
  - intros (-> & Hs & H) Hb. apply elem_of_cons in Hb as [->|Hb].
    + apply seg_le in H. lia.
    + destruct (IH _ H Hb) as (? & ? & ?). lia.
Qed.

Lemma seg_coverage (m : gmap Z Block.t) (l : list Z) (a e : Z) :
  seg m a l e -> coverage m l = e - a.
Proof.
  unfold coverage.
  revert a. induction l as [|b l IH]; intros a; simpl.
  - intros ->. lia.
  - intros (-> & Hs & H). rewrite (IH _ H). lia.
Qed.

(** Later blocks of a segment have larger addresses. *)
Lemma seg_increasing (m : gmap Z Block.t) (l : list Z) (a e : Z) :
  seg m a l e ->
  forall (i j : nat) (x y : Z),
    l !! i = Some x -> l !! j = Some y -> (i < j)%nat -> x < y.
Proof.
  revert a. induction l as [|b l IH]; intros a; simpl.
  - intros _ i j x y Hi. done.
  - intros (-> & Hs & H) i j x y Hi Hj Hlt.
    destruct j as [|j]; [lia|]. simpl in Hj.
    destruct i as [|i]; simpl in Hi.
    + injection Hi as <-.
      assert (y ∈ l) as Hy by (apply list_elem_of_lookup; eauto).
      destruct (seg_bounds _ _ _ _ _ H Hy) as (? & ? & ?). lia.
    + eapply IH; eauto. lia.
Qed.

Lemma seg_NoDup (m : gmap Z Block.t) (l : list Z) (a e : Z) :
  seg m a l e -> NoDup l.
Proof.
  intros H. apply NoDup_alt. intros i j x Hi Hj.
  destruct (Nat.lt_total i j) as [Hlt|[->|Hlt]]; [|done|].
  - pose proof (seg_increasing _ _ _ _ H i j x x Hi Hj Hlt). lia.
  - pose proof (seg_increasing _ _ _ _ H j i x x Hj Hi Hlt). lia.
Qed.

(** For consecutive blocks the link and the layout agree. *)
Lemma lseg_seg_contiguous (m : gmap Z Block.t) (l : list Z) (p a z e : Z) :
  lseg m p l z -> seg m a l e ->
  forall (i : nat) (x y : Z),
    l !! i = Some x -> l !! S i = Some y ->
    Block.next (cell m x) = y
    /\ y = x + sizeof_Block + Block.size (cell m x).
Proof.
  revert p a. induction l as [|b l IH]; intros p a; simpl.
  - intros _ _ i x y Hi. done.
  - intros (-> & Hp & Hl) (<- & Hs & Hg) i x y Hi Hj.
    destruct i as [|i]; simpl in Hi, Hj.
    + injection Hi as <-. destruct l as [|c l]; [done|].
      simpl in Hj. injection Hj as <-.
      simpl in Hl, Hg. destruct Hl as (Hl & _). destruct Hg as (Hg & _).
      split; congruence.
    + eapply IH; eauto.
Qed.

(** The terminal block, and only it, has [next == NULL]. *)
Lemma lseg_terminal (m : gmap Z Block.t) (l : list Z) (p : Z) :
  lseg m p l NULL -> NoDup l ->
  forall t, last l = Some t ->
            forall b, b ∈ l -> (Block.next (cell m b) = NULL <-> b = t).
Proof.
  revert p. induction l as [|x l IH]; intros p; simpl.
  - intros _ _ t Ht. done.
  - intros (-> & Hp & Hl) Hnd t Ht b Hb.
    apply NoDup_cons in Hnd as (Hnotin & Hnd).
    destruct l as [|c l].
    + simpl in Hl. injection Ht as <-.
      apply list_elem_of_singleton in Hb as ->. done.
    + assert (last (c :: l) = Some t) as Ht' by exact Ht.
      apply elem_of_cons in Hb as [->|Hb].
      * simpl in Hl. destruct Hl as (Hc & Hcn & _). split.
        -- intros E. congruence.
        -- intros ->. exfalso. apply Hnotin.
           apply last_Some in Ht' as (l' & ->).
           apply elem_of_app. right. apply list_elem_of_singleton. done.
      * eapply IH; eauto.
Qed.

(** *** The invariant is established by [init_heap] and kept by [malloc] *)

Lemma init_heap_cells (size : Z) (s0 : State) :
  exists s,
    init_heap size s0 = Done tt s
    /\ heap s = Heap.mk (mmap size) size
    /\ stdout s = stdout s0
    /\ cell (mem s) (mmap size)
       = Block.mk (wrap (size - sizeof_Block)) true NULL
    /\ forall x, x <> mmap size -> cell (mem s) x = cell (mem s0) x.
Proof.
  eexists. split.
  { cbv [init_heap bind set_heap_head set_heap_size get_heap
           store_size store_free store_next upd_mem].
    reflexivity. }
  simpl. repeat split.
  - by rewrite !cell_insert_eq.
  - intros x Hx. by rewrite !cell_insert_ne.
Qed.

Lemma init_heap_shape (total : Z) (s0 s : State) :
  sizeof_Block <= total ->
  mapping_ok (mmap total) total ->
  init_heap total s0 = Done tt s ->
  heap_shape total s [mmap total].
Proof.
  intros Htot Hmap Hrun.
  destruct (init_heap_cells total s0) as (s1 & E & Hh & _ & Hc & _).
  rewrite E in Hrun. injection Hrun as <-.
  pose proof MIN_BLOCK_SIZE_nonneg as Hmin.
  assert (wrap (total - sizeof_Block) = total - sizeof_Block) as Hw.
  { apply wrap_small. destruct Hmap. lia. }
  unfold heap_shape, chain. rewrite Hh. simpl. rewrite Hc. simpl.
  rewrite Hw. destruct Hmap as [Hb He].
  repeat split; try done; try lia.
  unfold NULL. lia.
Qed.

(** Splitting the block [r] of a well-shaped list at [sz] puts the new
    block between [r] and its successor. *)
Lemma shape_split (m m' : gmap Z Block.t) (a e r sz : Z) (l1 l2 : list Z) :
  0 < a ->
  lseg m a (l1 ++ r :: l2) NULL ->
  seg m a (l1 ++ r :: l2) e ->
  0 <= sz ->
  sz + sizeof_Block <= Block.size (cell m r) ->
  Block.size (cell m' r) = sz ->
  Block.next (cell m' r) = r + sizeof_Block + sz ->
  Block.size (cell m' (r + sizeof_Block + sz))
  = Block.size (cell m r) - sizeof_Block - sz ->
  Block.next (cell m' (r + sizeof_Block + sz)) = Block.next (cell m r) ->
  (forall x, x <> r -> x <> r + sizeof_Block + sz -> cell m' x = cell m x) ->
  lseg m' a (l1 ++ r :: (r + sizeof_Block + sz) :: l2) NULL
  /\ seg m' a (l1 ++ r :: (r + sizeof_Block + sz) :: l2) e.
Proof.
  intros Ha Hl Hg Hsz Hrem Hrs Hrn Hns Hnn Hfr.
  apply lseg_app in Hl as (c & Hl1 & Hl2).
  apply seg_app in Hg as (c' & Hg1 & Hg2).
  simpl in Hl2, Hg2.
  destruct Hl2 as (Ec & Hr0 & Hl2). destruct Hg2 as (Ec' & Hrsz & Hg2).
  subst c c'.
  assert (a <= r) as Hac by (eapply seg_le; eauto).
  assert (forall b, b ∈ l1 -> b <> r /\ b <> r + sizeof_Block + sz) as Hout1.
  { intros b Hb. destruct (seg_bounds _ _ _ _ _ Hg1 Hb) as (? & ? & ?).
    lia. }
  assert (forall b, b ∈ l2 -> b <> r /\ b <> r + sizeof_Block + sz) as Hout2.
  { intros b Hb. destruct (seg_bounds _ _ _ _ _ Hg2 Hb) as (? & ? & ?).
    lia. }
  split.
  - apply lseg_app. exists r. split.
    + eapply lseg_frame; [|exact Hl1].
      intros b Hb. destruct (Hout1 b Hb). by rewrite Hfr.
    + simpl. split; [done|]. split; [done|]. rewrite Hrn.
      split; [done|]. split; [unfold NULL; lia|]. rewrite Hnn.
      eapply lseg_frame; [|exact Hl2].
      intros b Hb. destruct (Hout2 b Hb). by rewrite Hfr.
  - apply seg_app. exists r. split.
    + eapply seg_frame; [|exact Hg1].
      intros b Hb. destruct (Hout1 b Hb). by rewrite Hfr.
    + simpl. rewrite Hrs. split; [done|]. split; [done|].
      split; [done|]. rewrite Hns. split; [lia|].
      replace (r + sizeof_Block + sz + sizeof_Block
               + (Block.size (cell m r) - sizeof_Block - sz))
        with (r + sizeof_Block + Block.size (cell m r))
        by lia.
      eapply seg_frame; [|exact Hg2].
      intros b Hb. destruct (Hout2 b Hb). by rewrite Hfr.
Qed.

(** Changing only [free] flags keeps the shape. *)
Lemma shape_frame (total : Z) (s s' : State) (l : list Z) :
  heap s' = heap s ->
  (forall b, Block.size (cell (mem s') b) = Block.size (cell (mem s) b)
             /\ Block.next (cell (mem s') b) = Block.next (cell (mem s) b)) ->
  heap_shape total s l -> heap_shape total s' l.
Proof.
  intros Hh Hag (Hne & Hmap & Hc & Hg).
  unfold heap_shape. rewrite Hh. repeat split; try done.
  - apply Hmap.
  - apply Hmap.
  - eapply lseg_frame; [|exact Hc]. intros b _. apply Hag.
  - eapply seg_frame; [|exact Hg]. intros b _. apply Hag.
Qed.

(** In a well-shaped heap the sum in the split test of [malloc] does not
    wrap, and neither does the address of the new header. *)
Lemma shape_no_wrap (total : Z) (s : State) (l : list Z) (r sz : Z) :
  heap_shape total s l -> r ∈ l ->
  0 <= sz <= Block.size (cell (mem s) r) ->
  0 < r
  /\ r + sizeof_Block + Block.size (cell (mem s) r) + MIN_BLOCK_SIZE <= modulus
  /\ wrap (sz + sizeof_Block + MIN_BLOCK_SIZE)
     = sz + sizeof_Block + MIN_BLOCK_SIZE
  /\ wrap (r + sizeof_Block) = r + sizeof_Block
  /\ wrap (r + sizeof_Block + sz) = r + sizeof_Block + sz.
Proof.
  intros (_ & (Hb & He) & _ & Hg) Hr Hsz.
  destruct (seg_bounds _ _ _ _ _ Hg Hr) as (H1 & H2 & H3).
  pose proof MIN_BLOCK_SIZE_nonneg as Hmin.
  split; [lia|]. split; [lia|].
  split; [|split]; apply wrap_small; lia.
Qed.

(** What one returning call of [malloc] does to a well-shaped heap. *)
Lemma malloc_shape (total : Z) (s s' : State) (l : list Z)
      (n : nat) (sz p : Z) :
  heap_shape total s l ->
  0 <= sz ->
  malloc n sz s = Done p s' ->
  (first_fit (mem s) sz l = NULL /\ p = NULL /\ s' = s
   /\ forall b, b ∈ l -> fits (mem s) sz b = false)
  \/ (exists r l1 l2,
        r = first_fit (mem s) sz l /\ l = l1 ++ r :: l2
        /\ (forall b, b ∈ l1 -> fits (mem s) sz b = false)
        /\ Block.free (cell (mem s) r) = true
        /\ p = r + sizeof_Block /\ p <> NULL
        /\ heap s' = heap s /\ stdout s' = stdout s
        /\ ((sz + sizeof_Block + MIN_BLOCK_SIZE <= Block.size (cell (mem s) r)
             /\ heap_shape total s' (l1 ++ r :: (r + sizeof_Block + sz) :: l2)
             /\ cell (mem s') r
                = Block.mk sz false (r + sizeof_Block + sz))
            \/ (Block.size (cell (mem s) r) < sz + sizeof_Block + MIN_BLOCK_SIZE
                /\ heap_shape total s' l
                /\ cell (mem s') r
                   = Block.mk (Block.size (cell (mem s) r)) false
                       (Block.next (cell (mem s) r))))).
Proof.
  intros Hshape Hsz Hrun.
  pose proof Hshape as (Hne & Hmap & Hc & Hg).
  assert (exists r, find_free_block n sz s = Done r s
                    /\ r = first_fit (mem s) sz l) as (r & Hfind & Hr).
  { unfold malloc, bind in Hrun.
    destruct (find_free_block n sz s) as [r s1|] eqn:E; [|done].
    destruct (find_free_block_done _ _ _ _ _ _ Hc E) as [-> ->]. eauto. }
  rewrite (malloc_after_find _ _ _ _ Hfind) in Hrun.
  destruct (first_fit_spec (mem s) sz _ l Hc) as [[E Hall]|[E Hex]];
    rewrite <- Hr in E.
  - left. rewrite E in Hrun. simpl in Hrun. unfold ret in Hrun.
    injection Hrun as <- <-. rewrite <- Hr. done.
  - right. destruct Hex as (l1 & l2 & Hl & Hfit & Hl1).
    rewrite <- Hr in Hl, Hfit.
    apply Z.eqb_neq in E as E'. rewrite E' in Hrun.
    unfold fits in Hfit. apply andb_true_iff in Hfit as [Hfree Hle].
    apply Z.leb_le in Hle.
    assert (r ∈ l) as Hin.
    { rewrite Hl. apply elem_of_app. right. apply elem_of_cons. by left. }
    destruct (shape_no_wrap total s l r sz Hshape Hin)
      as (Hr0 & Htop & Hw1 & Hw2 & Hw3); [lia|].
    pose proof MIN_BLOCK_SIZE_nonneg as Hmin.
    exists r, l1, l2.
    do 4 (split; [done|]).
    unfold bind at 1, load_size in Hrun. rewrite Hw1, Hw2 in Hrun.
    destruct (sz + sizeof_Block + MIN_BLOCK_SIZE
              <=? Block.size (cell (mem s) r)) eqn:Hguard.
    + apply Z.leb_le in Hguard.
      destruct (split_block_cells s r sz)
        as (s1 & E1 & Hh1 & Ho1 & Hcr & Hcn & Hfr1); [rewrite Hw3; lia|].
      destruct (store_free_cells s1 r false)
        as (s2 & E2 & Hh2 & Ho2 & Hcr2 & Hfr2).
      unfold bind in Hrun. rewrite E1, E2 in Hrun. unfold ret in Hrun.
      injection Hrun as <- <-.
      rewrite Hw3 in Hcr, Hcn, Hfr1.
      assert (r + sizeof_Block + sz <> r) as Hnr by lia.
      split; [done|]. split; [unfold NULL; lia|].
      split; [congruence|]. split; [congruence|].
      left. split; [done|]. split.
      * unfold heap_shape. rewrite Hh2, Hh1.
        split; [by destruct l1|]. split; [done|].
        rewrite Hl in Hc, Hg.
        destruct Hmap as [Hb _].
        apply (shape_split (mem s) (mem s2) _ _ r sz l1 l2 Hb Hc Hg);
          try lia.
        -- rewrite Hcr2, Hcr. done.
        -- rewrite Hcr2, Hcr. done.
        -- rewrite Hfr2 by done. rewrite Hcn. simpl.
           apply wrap_small. lia.
        -- rewrite Hfr2 by done. rewrite Hcn. done.
        -- intros x Hx1 Hx2. rewrite Hfr2 by done. by apply Hfr1.
      * rewrite Hcr2, Hcr. done.
    + apply Z.leb_gt in Hguard.
      destruct (store_free_cells s r false)
        as (s2 & E2 & Hh2 & Ho2 & Hcr2 & Hfr2).
      unfold bind, ret at 1 in Hrun. rewrite E2 in Hrun. unfold ret in Hrun.
      injection Hrun as <- <-.
      split; [done|]. split; [unfold NULL; lia|].
      split; [done|]. split; [done|].
      right. split; [done|]. split; [|done].
      eapply shape_frame; [exact Hh2| |exact Hshape].
      intros b. destruct (decide (b = r)) as [->|Hb].
      * rewrite Hcr2. done.
      * rewrite Hfr2 by done. done.
Qed.

Lemma reachable_shape (total : Z) (s : State) :
  sizeof_Block <= total ->
  mapping_ok (mmap total) total ->
  reachable total s ->
  exists l, heap_shape total s l.
Proof.
  intros Htot Hmap Hreach.
  induction Hreach as [s0 s Hinit|s n sz p s' _ IH Hsz Hrun].
  - exists [mmap total]. by eapply init_heap_shape.
  - destruct IH as (l & Hshape).
    destruct (malloc_shape total s s' l n sz p Hshape (proj1 Hsz) Hrun)
      as [(_ & _ & -> & _)|(r & l1 & l2 & _ & _ & _ & _ & _ & _ & _ & _ & Hcase)].
    + eauto.
    + destruct Hcase as [(_ & H & _)|(_ & H & _)]; eauto.
Qed.

(** *** Running [malloc] on any finite block list *)

Lemma split_block_returns (s : State) (block left_size : Z) :
  exists s', split_block block left_size s = Done tt s'.
Proof. eexists. reflexivity. Qed.

Lemma wrap_add_ne (b k : Z) : 0 < k < modulus -> wrap (b + k) <> b.
Proof.
  intros Hk E. unfold wrap in E.
  pose proof modulus_pos as HM.
  pose proof (Z.div_mod (b + k) modulus ltac:(lia)) as Hdm.
  rewrite E in Hdm.
  assert (k = modulus * ((b + k) / modulus)) as Hq by lia.
  assert (0 < (b + k) / modulus) as H0 by nia.
  nia.
Qed.

Lemma wrap_neg (z : Z) : - modulus <= z < 0 -> wrap z = z + modulus.
Proof.
  intros Hz. unfold wrap.
  rewrite <- (Z_mod_plus_full z 1 modulus).
  rewrite Z.mul_1_l. apply Z.mod_small. lia.
Qed.

(** *** The heap walk *)

Lemma print_loop_chain (l : list Z) :
  forall (n : nat) (p : Z) (s : State),
    chain (mem s) p l ->
    (length l <= n)%nat ->
    print_loop n p s
    = Done tt (mkState (heap s) (mem s) (stdout s ++ report (mem s) l)).
Proof.
  unfold chain.
  induction l as [|b l IH]; intros n p s; simpl.
  - intros -> _. rewrite app_nil_r. destruct s. by destruct n.
  - intros (-> & Hp & H) Hn. destruct n as [|n]; [lia|]. simpl.
    apply Z.eqb_neq in Hp. rewrite Hp.
    unfold bind, load_free, load_size, load_next, printf. simpl.
    rewrite IH; simpl; [|done|lia].
    rewrite <- app_assoc. done.
Qed.

Lemma malloc_returns (s : State) (l : list Z) (n : nat) (sz : Z) :
  chain (mem s) (Heap.head (heap s)) l ->
  (length l <= n)%nat ->
  exists p s', malloc n sz s = Done p s'.
Proof.
  intros Hc Hn.
  pose proof (find_free_block_chain s sz l n Hc Hn) as Hfind.
  rewrite (malloc_after_find _ _ _ _ Hfind).
  destruct (first_fit (mem s) sz l =? NULL); [by eexists _, _|].
  unfold bind at 1, load_size.
  destruct (store_free_cells s (first_fit (mem s) sz l) false)
    as (s2 & E2 & _).
  destruct (split_block_returns s (first_fit (mem s) sz l) sz) as (s1 & E1).
  destruct (store_free_cells s1 (first_fit (mem s) sz l) false)
    as (s3 & E3 & _).
  destruct (_ <=? _); unfold bind, ret at 1.
  - rewrite E1, E3. by eexists _, _.
  - rewrite E2. by eexists _, _.
Qed.

(** ** The allocator's properties *)

(** C1, as the code has it.  On a heap whose block list is finite,
    [malloc] calls [find_free_block].  When no block is found it returns
    [NULL].  When the block [r] is found it returns the payload address
    [r + sizeof(Block)] (reduced to a pointer) and leaves [r] busy; if
    [r->size >= size + sizeof(Block) + MIN_BLOCK_SIZE], the sum being
    taken in [size_t], the state is the one [split_block(r, size)]
    followed by [r->free = false] produces; otherwise nothing but the
    [free] flag of [r] changes, and the payload of [r] is at least as
    large as the request (it may be equal to it). *)
Theorem malloc_contract (s : State) (l : list Z) (n : nat) (sz : Z) :
  chain (mem s) (Heap.head (heap s)) l ->
  (length l <= n)%nat ->
  exists r,
    find_free_block n sz s = Done r s
    /\ (r = NULL -> malloc n sz s = Done NULL s)
    /\ (r <> NULL ->
        exists s',
          malloc n sz s = Done (wrap (r + sizeof_Block)) s'
          /\ (0 <= r + sizeof_Block < modulus ->
              wrap (r + sizeof_Block) = r + sizeof_Block)
          /\ Block.free (cell (mem s') r) = false
          /\ (wrap (sz + sizeof_Block + MIN_BLOCK_SIZE)
              <= Block.size (cell (mem s) r) ->
              (split_block r sz ;;; store_free r false) s = Done tt s')
          /\ (Block.size (cell (mem s) r)
              < wrap (sz + sizeof_Block + MIN_BLOCK_SIZE) ->
              store_free r false s = Done tt s'
              /\ Block.size (cell (mem s') r) = Block.size (cell (mem s) r)
              /\ Block.next (cell (mem s') r) = Block.next (cell (mem s) r)
              /\ sz <= Block.size (cell (mem s') r)
              /\ forall x, x <> r -> cell (mem s') x = cell (mem s) x)).
Proof.
  intros Hc Hn.
  pose proof (find_free_block_chain s sz l n Hc Hn) as Hfind.
  exists (first_fit (mem s) sz l). split; [done|].
  rewrite (malloc_after_find _ _ _ _ Hfind).
  split.
  - intros ->. done.
  - intros Hr.
    destruct (first_fit_spec (mem s) sz _ l Hc) as [[E _]|[_ Hex]]; [done|].
    destruct Hex as (_ & _ & _ & Hfit & _).
    set (r := first_fit (mem s) sz l) in *.
    unfold fits in Hfit. apply andb_true_iff in Hfit as [_ Hle].
    apply Z.leb_le in Hle.
    apply Z.eqb_neq in Hr as Hr'. rewrite Hr'.
    unfold bind at 1, load_size.
    destruct (wrap (sz + sizeof_Block + MIN_BLOCK_SIZE)
              <=? Block.size (cell (mem s) r)) eqn:Hguard.
    + apply Z.leb_le in Hguard.
      destruct (split_block_returns s r sz) as (s1 & E1).
      destruct (store_free_cells s1 r false)
        as (s2 & E2 & _ & _ & Hcr2 & _).
      exists s2. unfold bind. rewrite E1, E2. unfold ret.
      split; [done|]. split; [apply wrap_small|].
      split; [by rewrite Hcr2|]. split; [done|]. lia.
    + apply Z.leb_gt in Hguard.
      destruct (store_free_cells s r false)
        as (s2 & E2 & _ & _ & Hcr2 & Hfr2).
      exists s2. unfold bind, ret at 1. rewrite E2. unfold ret.
      split; [done|]. split; [apply wrap_small|].
      split; [by rewrite Hcr2|]. split; [lia|].
      intros _. rewrite Hcr2. simpl. done.
Qed.

(** C2.  On a heap whose block list [l] is finite, [find_free_block]
    returns without changing the state.  Its result is the first block
    of [l], in list order from [head], that is free and has
    [size >= requested]; it is [NULL] when no block of [l] qualifies.
    In particular, when the free blocks of [l] have sizes 16, 4096, 32
    in this order, a request of 20 bytes returns the block of 4096. *)
Theorem find_free_block_first_fit (s : State) (l : list Z) (n : nat) (sz : Z) :
  chain (mem s) (Heap.head (heap s)) l ->
  (length l <= n)%nat ->
  exists r,
    find_free_block n sz s = Done r s
    /\ ((r = NULL /\ forall b, b ∈ l -> fits (mem s) sz b = false)
        \/ (r <> NULL /\
            exists l1 l2,
              l = l1 ++ r :: l2
              /\ Block.free (cell (mem s) r) = true
              /\ sz <= Block.size (cell (mem s) r)
              /\ forall b, b ∈ l1 -> fits (mem s) sz b = false))
    /\ (sz = 20 -> free_sizes (mem s) l = [16; 4096; 32] ->
        r <> NULL /\ Block.free (cell (mem s) r) = true
        /\ Block.size (cell (mem s) r) = 4096).
Proof.
  intros Hc Hn.
  exists (first_fit (mem s) sz l).
  split; [by apply find_free_block_chain|].
  destruct (first_fit_spec (mem s) sz _ l Hc) as [[E Hall]|[E Hex]].
  - split; [left; done|].
    intros -> Hfs. exfalso.
    assert (exists b, b ∈ l /\ Block.free (cell (mem s) b) = true
                      /\ Block.size (cell (mem s) b) = 4096)
      as (b & Hb & Hfree & Hsize).
    { assert (4096 ∈ free_sizes (mem s) l) as Hin.
      { rewrite Hfs. apply elem_of_cons. right. apply elem_of_cons. by left. }
      unfold free_sizes in Hin.
      apply list_elem_of_In, in_map_iff in Hin as (b & Hsize & Hb).
      apply filter_In in Hb as [Hb Hfree].
      exists b. split; [by apply list_elem_of_In|done]. }
    specialize (Hall b Hb). unfold fits in Hall.
    rewrite Hfree, Hsize in Hall. done.
  - destruct Hex as (l1 & l2 & Hl & Hfit & Hl1).
    set (r := first_fit (mem s) sz l) in *.
    unfold fits in Hfit. apply andb_true_iff in Hfit as [Hfree Hle].
    apply Z.leb_le in Hle.
    split.
    { right. split; [done|]. exists l1, l2. done. }
    intros -> Hfs. split; [done|]. split; [done|].
    rewrite Hl in Hfs. unfold free_sizes in Hfs.
    rewrite List.filter_app, map_app in Hfs. simpl in Hfs.
    rewrite Hfree in Hfs. simpl in Hfs.
    assert (forall z,
               z ∈ map (fun b => Block.size (cell (mem s) b))
                 (List.filter (fun b => Block.free (cell (mem s) b)) l1) ->
               z < 20) as Hsmall.
    { intros z Hz.
      apply list_elem_of_In, in_map_iff in Hz as (b & <- & Hb).
      apply filter_In in Hb as [Hb Hbf].
      apply list_elem_of_In in Hb. specialize (Hl1 b Hb).
      unfold fits in Hl1. rewrite Hbf in Hl1. simpl in Hl1.
      by apply Z.leb_gt in Hl1. }
    destruct (map _ (List.filter _ l1)) as [|z1 [|z2 [|z3 fs]]];
      simpl in Hfs.
    + injection Hfs as Hfs _. lia.
    + injection Hfs as _ Hfs _. done.
    + injection Hfs as _ E2 _.
      assert (z2 < 20) as Hz2.
      { apply Hsmall. apply elem_of_cons. right. apply elem_of_cons. by left. }
      lia.
    + injection Hfs as _ E2 _.
      assert (z2 < 20) as Hz2.
      { apply Hsmall. apply elem_of_cons. right. apply elem_of_cons. by left. }
      lia.
Qed.

(** C3.  For a free block whose size is at least
    [left_size + sizeof(Block) + MIN_BLOCK_SIZE], [split_block]
    partitions it in place.  The left block keeps its address, its size
    becomes [left_size], its [next] is the new header and its [free]
    flag is as before.  The new header lies at
    [block + sizeof(Block) + left_size] (as a pointer; this is the plain
    sum whenever the block lies inside the address space), has size
    [original size - sizeof(Block) - left_size], is free, and its [next]
    is the original [next].  No other header, nor the global heap,
    changes. *)
Theorem split_block_partitions (s : State) (block left_size : Z) :
  Block.free (cell (mem s) block) = true ->
  0 <= left_size ->
  left_size + sizeof_Block + MIN_BLOCK_SIZE <= Block.size (cell (mem s) block) ->
  Block.size (cell (mem s) block) < modulus ->
  exists s' new_block,
    split_block block left_size s = Done tt s'
    /\ new_block = wrap (block + sizeof_Block + left_size)
    /\ new_block <> block
    /\ (0 <= block ->
        block + sizeof_Block + Block.size (cell (mem s) block) <= modulus ->
        new_block = block + sizeof_Block + left_size)
    /\ Block.size (cell (mem s') block) = left_size
    /\ Block.next (cell (mem s') block) = new_block
    /\ Block.free (cell (mem s') block) = Block.free (cell (mem s) block)
    /\ Block.size (cell (mem s') new_block)
       = Block.size (cell (mem s) block) - sizeof_Block - left_size
    /\ Block.free (cell (mem s') new_block) = true
    /\ Block.next (cell (mem s') new_block) = Block.next (cell (mem s) block)
    /\ (forall x, x <> block -> x <> new_block ->
                  cell (mem s') x = cell (mem s) x)
    /\ heap s' = heap s.
Proof.
  intros Hfree Hleft Hpre Hsize.
  pose proof MIN_BLOCK_SIZE_nonneg as Hmin.
  assert (wrap (block + sizeof_Block + left_size) <> block) as Hne.
  { rewrite <- Z.add_assoc. apply wrap_add_ne. lia. }
  destruct (split_block_cells s block left_size Hne)
    as (s' & E & Hh & _ & Hcb & Hcn & Hfr).
  exists s', (wrap (block + sizeof_Block + left_size)).
  split; [done|]. split; [done|]. split; [done|].
  split; [intros Hb Hext; apply wrap_small; lia|].
  rewrite Hcb, Hcn. simpl.
  repeat split; try done.
  apply wrap_small. lia.
Qed.

(** C4, as the code has it.  After [init_heap(total)] with
    [total >= sizeof(Block)] on a mapping inside the address space, and
    after any sequence of [malloc] calls, the heap has a finite block
    list, and [sizeof(Block) + size] summed over it is [total]. *)
Theorem coverage_invariant (total : Z) (s : State) :
  sizeof_Block <= total ->
  mapping_ok (mmap total) total ->
  reachable total s ->
  exists l,
    chain (mem s) (Heap.head (heap s)) l
    /\ coverage (mem s) l = total.
Proof.
  intros Htot Hmap Hreach.
  destruct (reachable_shape total s Htot Hmap Hreach)
    as (l & _ & _ & Hc & Hg).
  exists l. split; [done|].
  rewrite (seg_coverage _ _ _ _ Hg). lia.
Qed.

(** C5, as the code has it.  After [init_heap(total)] with
    [total >= sizeof(Block)] on a mapping inside the address space, and
    after any sequence of [malloc] calls, the block list is finite and
    without repetition; of two consecutive blocks the second is the
    [next] of the first and lies at the first's address plus
    [sizeof(Block)] plus the first's size; and the last block of the
    list is the one block whose [next] is [NULL]. *)
Theorem contiguity_invariant (total : Z) (s : State) :
  sizeof_Block <= total ->
  mapping_ok (mmap total) total ->
  reachable total s ->
  exists l t,
    chain (mem s) (Heap.head (heap s)) l
    /\ NoDup l
    /\ last l = Some t
    /\ (forall (i : nat) (x y : Z),
           l !! i = Some x -> l !! S i = Some y ->
           Block.next (cell (mem s) x) = y
           /\ y = x + sizeof_Block + Block.size (cell (mem s) x))
    /\ (forall b, b ∈ l -> (Block.next (cell (mem s) b) = NULL <-> b = t)).
Proof.
  intros Htot Hmap Hreach.
  destruct (reachable_shape total s Htot Hmap Hreach)
    as (l & Hne & _ & Hc & Hg).
  pose proof (seg_NoDup _ _ _ _ Hg) as Hnd.
  destruct (last l) as [t|] eqn:Hlast.
  - exists l, t. split; [done|]. split; [done|]. split; [done|]. split.
    + by apply (lseg_seg_contiguous _ _ _ _ _ _ Hc Hg).
    + by apply (lseg_terminal _ _ _ Hc Hnd).
  - apply last_None in Hlast. done.
Qed.


(** C7.  On a heap whose block list is finite, when every free block is
    smaller than the request, [malloc] returns [NULL] and the state is
    the one before the call. *)
Theorem malloc_out_of_memory (s : State) (l : list Z) (n : nat) (sz : Z) :
  chain (mem s) (Heap.head (heap s)) l ->
  (length l <= n)%nat ->
  (forall b, b ∈ l -> Block.free (cell (mem s) b) = true ->
             Block.size (cell (mem s) b) < sz) ->
  malloc n sz s = Done NULL s.
Proof.
  intros Hc Hn Hsmall.
  pose proof (find_free_block_chain s sz l n Hc Hn) as Hfind.
  rewrite (malloc_after_find _ _ _ _ Hfind).
  destruct (first_fit_spec (mem s) sz _ l Hc) as [[E _]|[_ Hex]].
  - rewrite E. done.
  - exfalso. destruct Hex as (l1 & l2 & Hl & Hfit & _).
    unfold fits in Hfit. apply andb_true_iff in Hfit as [Hfree Hle].
    apply Z.leb_le in Hle.
    assert (first_fit (mem s) sz l ∈ l) as Hin.
    { rewrite Hl at 2. apply elem_of_app. right. apply elem_of_cons. by left. }
    specialize (Hsmall _ Hin Hfree). lia.
Qed.


(** C9.  In a well-shaped heap with at least one free block,
    [malloc(0)] returns the payload address of the first free block,
    which is not [NULL].  If that block has at least
    [sizeof(Block) + MIN_BLOCK_SIZE] bytes of payload it is split at 0:
    the heap is well shaped again and its block list contains the block,
    now busy and with a payload of 0 bytes, less than
    [MIN_BLOCK_SIZE]. *)
Theorem malloc_zero_size (total : Z) (s : State) (l : list Z) (n : nat) :
  8 <= word_bits ->
  heap_shape total s l ->
  (length l <= n)%nat ->
  (exists b, b ∈ l /\ Block.free (cell (mem s) b) = true) ->
  exists r s',
    malloc n 0 s = Done (r + sizeof_Block) s'
    /\ r + sizeof_Block <> NULL
    /\ (exists l1 l2,
           l = l1 ++ r :: l2
           /\ Block.free (cell (mem s) r) = true
           /\ forall b, b ∈ l1 -> Block.free (cell (mem s) b) = false)
    /\ (sizeof_Block + MIN_BLOCK_SIZE <= Block.size (cell (mem s) r) ->
        exists l',
          heap_shape total s' l'
          /\ r ∈ l'
          /\ Block.free (cell (mem s') r) = false
          /\ Block.size (cell (mem s') r) = 0
          /\ Block.size (cell (mem s') r) < MIN_BLOCK_SIZE).
Proof.
  intros Hw Hshape Hn (b & Hb & Hbfree).
  pose proof Hshape as (_ & _ & Hc & Hg).
  assert (forall x, x ∈ l -> fits (mem s) 0 x = Block.free (cell (mem s) x))
    as Hfits.
  { intros x Hx. destruct (seg_bounds _ _ _ _ _ Hg Hx) as (_ & Hx0 & _).
    unfold fits. apply Z.leb_le in Hx0. rewrite Hx0. apply andb_true_r. }
  assert (0 < MIN_BLOCK_SIZE) as Hmin.
  { unfold MIN_BLOCK_SIZE. apply Z.div_str_pos. lia. }
  destruct (malloc_returns s l n 0 Hc Hn) as (p & s' & Hrun).
  destruct (malloc_shape total s s' l n 0 p Hshape ltac:(lia) Hrun)
    as [(_ & _ & _ & Hall)|(r & l1 & l2 & _ & Hl & Hl1 & Hfree & -> & Hp
                             & _ & _ & Hcase)].
  - specialize (Hall b Hb). rewrite (Hfits b Hb) in Hall. congruence.
  - exists r, s'. split; [done|]. split; [done|]. split.
    + exists l1, l2. split; [done|]. split; [done|].
      intros x Hx. rewrite <- Hfits.
      * by apply Hl1.
      * rewrite Hl. apply elem_of_app. by left.
    + intros Hbig.
      destruct Hcase as [(_ & Hshape' & Hcell)|(Hlt & _)]; [|lia].
      exists (l1 ++ r :: (r + sizeof_Block + 0) :: l2).
      split; [done|]. split.
      { apply elem_of_app. right. apply elem_of_cons. by left. }
      rewrite Hcell. simpl. done.
Qed.


(** ** Further properties of the allocator *)

Local Abbreviation malloc_steps := (malloc_steps word_bits sizeof_Block).

(** *** What one call leaves alone *)

(** The headers [malloc] does not write, and the header it creates. *)
Lemma malloc_frame (total : Z) (s s' : State) (l : list Z)
      (n : nat) (sz p : Z) :
  heap_shape total s l ->
  0 <= sz ->
  malloc n sz s = Done p s' ->
  first_fit (mem s) sz l <> NULL ->
  (sz + sizeof_Block + MIN_BLOCK_SIZE
   <= Block.size (cell (mem s) (first_fit (mem s) sz l)) ->
   cell (mem s') (first_fit (mem s) sz l + sizeof_Block + sz)
   = Block.mk
       (Block.size (cell (mem s) (first_fit (mem s) sz l)) - sizeof_Block - sz)
       true (Block.next (cell (mem s) (first_fit (mem s) sz l)))
   /\ forall x, x <> first_fit (mem s) sz l ->
                x <> first_fit (mem s) sz l + sizeof_Block + sz ->
                cell (mem s') x = cell (mem s) x)
  /\ (Block.size (cell (mem s) (first_fit (mem s) sz l))
      < sz + sizeof_Block + MIN_BLOCK_SIZE ->
      forall x, x <> first_fit (mem s) sz l -> cell (mem s') x = cell (mem s) x).
Proof.
  intros Hshape Hsz Hrun Hnn.
  pose proof Hshape as (Hne & Hmap & Hc & Hg).
  assert (find_free_block n sz s = Done (first_fit (mem s) sz l) s) as Hfind.
  { unfold malloc, bind in Hrun.
    destruct (find_free_block n sz s) as [r s1|] eqn:E; [|done].
    destruct (find_free_block_done _ _ _ _ _ _ Hc E) as [-> ->]. done. }
  rewrite (malloc_after_find _ _ _ _ Hfind) in Hrun.
  destruct (first_fit_spec (mem s) sz _ l Hc) as [[E _]|[_ Hex]]; [done|].
  destruct Hex as (l1 & l2 & Hl & Hfit & _).
  set (r := first_fit (mem s) sz l) in *.
  apply Z.eqb_neq in Hnn as E'. rewrite E' in Hrun.
  unfold fits in Hfit. apply andb_true_iff in Hfit as [Hfree Hle].
  apply Z.leb_le in Hle.
  assert (r ∈ l) as Hin.
  { rewrite Hl. apply elem_of_app. right. apply elem_of_cons. by left. }
  destruct (shape_no_wrap total s l r sz Hshape Hin)
    as (Hr0 & Htop & Hw1 & Hw2 & Hw3); [lia|].
  pose proof MIN_BLOCK_SIZE_nonneg as Hmin.
  unfold bind at 1, load_size in Hrun. rewrite Hw1, Hw2 in Hrun.
  destruct (sz + sizeof_Block + MIN_BLOCK_SIZE
            <=? Block.size (cell (mem s) r)) eqn:Hguard.
  - apply Z.leb_le in Hguard.
    destruct (split_block_cells s r sz)
      as (s1 & E1 & _ & _ & _ & Hcn & Hfr1); [rewrite Hw3; lia|].
    destruct (store_free_cells s1 r false) as (s2 & E2 & _ & _ & _ & Hfr2).
    unfold bind in Hrun. rewrite E1, E2 in Hrun. unfold ret in Hrun.
    injection Hrun as <- <-.
    rewrite Hw3 in Hcn, Hfr1.
    split; [|lia]. intros _. split.
    + rewrite Hfr2 by lia. rewrite Hcn. f_equal. apply wrap_small. lia.
    + intros x Hx1 Hx2. rewrite Hfr2 by done. by apply Hfr1.
  - apply Z.leb_gt in Hguard.
    destruct (store_free_cells s r false) as (s2 & E2 & _ & _ & _ & Hfr2).
    unfold bind, ret at 1 in Hrun. rewrite E2 in Hrun. unfold ret in Hrun.
    injection Hrun as <- <-.
    split; [lia|]. intros _ x Hx. by apply Hfr2.
Qed.

(** Two different blocks of a segment do not share a byte. *)
Lemma seg_apart (m : gmap Z Block.t) (l1 l2 : list Z) (a e r : Z) :
  seg m a (l1 ++ r :: l2) e ->
  (forall b, b ∈ l1 -> b + sizeof_Block + Block.size (cell m b) <= r)
  /\ (forall b, b ∈ l2 -> r + sizeof_Block + Block.size (cell m r) <= b).
Proof.
  intros Hg. apply seg_app in Hg as (c & Hg1 & Hg2).
  simpl in Hg2. destruct Hg2 as (Ec & _ & Hg2). subst c. split.
  - intros b Hb. by destruct (seg_bounds _ _ _ _ _ Hg1 Hb) as (_ & _ & ?).
  - intros b Hb. by destruct (seg_bounds _ _ _ _ _ Hg2 Hb) as (? & _).
Qed.

Lemma seg_disjoint (m : gmap Z Block.t) (l : list Z) (a e x y : Z) :
  seg m a l e -> x ∈ l -> y ∈ l -> x <> y ->
  x + sizeof_Block + Block.size (cell m x) <= y
  \/ y + sizeof_Block + Block.size (cell m y) <= x.
Proof.
  intros Hg Hx Hy Hxy.
  apply list_elem_of_split in Hx as (l1 & l2 & ->).
  destruct (seg_apart _ _ _ _ _ _ Hg) as (Hbefore & Hafter).
  apply elem_of_app in Hy as [Hy|Hy].
  - right. by apply Hbefore.
  - apply elem_of_cons in Hy as [->|Hy]; [done|]. left. by apply Hafter.
Qed.

(** One returning call of [malloc] on a well-shaped heap, seen from the
    blocks: none disappears, no busy block is written, no free block
    grows, and the block behind a returned pointer was free, is now busy
    and holds the request. *)
Lemma malloc_step (total : Z) (s s' : State) (l : list Z)
      (n : nat) (sz p : Z) :
  heap_shape total s l ->
  0 <= sz ->
  malloc n sz s = Done p s' ->
  exists l',
    heap_shape total s' l'
    /\ heap s' = heap s
    /\ (forall b, b ∈ l -> b ∈ l')
    /\ (forall b, b ∈ l -> Block.free (cell (mem s) b) = false ->
                  cell (mem s') b = cell (mem s) b)
    /\ (forall b, b ∈ l' -> Block.free (cell (mem s') b) = true ->
                  exists b0, b0 ∈ l /\ Block.free (cell (mem s) b0) = true
                             /\ Block.size (cell (mem s') b)
                                <= Block.size (cell (mem s) b0))
    /\ ((p = NULL /\ s' = s
         /\ forall b, b ∈ l -> fits (mem s) sz b = false)
        \/ (p <> NULL /\ p - sizeof_Block ∈ l
            /\ Block.free (cell (mem s) (p - sizeof_Block)) = true
            /\ Block.free (cell (mem s') (p - sizeof_Block)) = false
            /\ sz <= Block.size (cell (mem s') (p - sizeof_Block))
            /\ Block.size (cell (mem s') (p - sizeof_Block))
               <= Block.size (cell (mem s) (p - sizeof_Block)))).
Proof.
  clear mmap.
  intros Hshape Hsz Hrun.
  pose proof Hshape as (_ & _ & Hc & Hg).
  pose proof MIN_BLOCK_SIZE_nonneg as Hmin.
  destruct (malloc_shape total s s' l n sz p Hshape Hsz Hrun)
    as [(_ & -> & -> & Hall)
       |(r & l1 & l2 & Hr & Hl & Hl1 & Hfree & -> & Hp & Hh & _ & Hcase)].
  - exists l. split; [done|]. split; [done|]. split; [done|].
    split; [done|]. split; [|left; done].
    intros b Hb Hbf. exists b. split; [done|]. split; [done|]. lia.
  - assert (r ∈ l) as Hin.
    { rewrite Hl. apply elem_of_app. right. apply elem_of_cons. by left. }
    assert (first_fit (mem s) sz l <> NULL) as Hnn.
    { rewrite <- Hr. eapply lseg_nonnull; [exact Hc|exact Hin]. }
    destruct (malloc_frame total s s' l n sz _ Hshape Hsz Hrun Hnn)
      as (Hsplit & Hkeep).
    rewrite <- Hr in Hsplit, Hkeep.
    assert (sz <= Block.size (cell (mem s) r)) as Hfit.
    { pose proof (find_first (fits (mem s) sz) l) as Hf.
      unfold first_fit in Hr, Hnn. destruct (List.find _ l) as [x|]; [|done].
      subst x. destruct Hf as (_ & _ & _ & Hf & _).
      unfold fits in Hf. apply andb_true_iff in Hf as [_ Hf].
      by apply Z.leb_le in Hf. }
    replace (r + sizeof_Block - sizeof_Block) with r by lia.
    destruct Hcase as [(Hbig & Hshape' & Hcell)|(Hsmall & Hshape' & Hcell)].
    + destruct (Hsplit Hbig) as (Hnew & Hfr).
      assert (forall b, b ∈ l -> b <> r + sizeof_Block + sz) as Hfresh.
      { intros b Hb. destruct (decide (b = r)) as [->|Hbr]; [lia|].
        destruct (seg_bounds _ _ _ _ _ Hg Hb) as (_ & Hb0 & _).
        destruct (seg_disjoint _ _ _ _ _ _ Hg Hb Hin Hbr); lia. }
      exists (l1 ++ r :: (r + sizeof_Block + sz) :: l2).
      split; [done|]. split; [done|]. split.
      { intros b. rewrite Hl, !elem_of_app, !elem_of_cons. tauto. }
      split.
      { intros b Hb Hbusy. apply Hfr; [congruence|by apply Hfresh]. }
      split.
      { intros b Hb Hbf.
        destruct (decide (b = r)) as [->|Hbr].
        { rewrite Hcell in Hbf. done. }
        destruct (decide (b = r + sizeof_Block + sz)) as [->|Hbn].
        { exists r. split; [done|]. split; [done|]. rewrite Hnew. simpl. lia. }
        exists b. rewrite (Hfr b Hbr Hbn) in *. split; [|split; [done|lia]].
        rewrite Hl. revert Hb. rewrite !elem_of_app, !elem_of_cons. tauto. }
      right. rewrite Hcell. simpl. repeat split; (done || lia).
    + exists l. split; [done|]. split; [done|]. split; [done|]. split.
      { intros b Hb Hbusy. apply (Hkeep Hsmall). congruence. }
      split.
      { intros b Hb Hbf.
        destruct (decide (b = r)) as [->|Hbr].
        { rewrite Hcell in Hbf. done. }
        exists b. rewrite (Hkeep Hsmall b Hbr) in *.
        split; [done|]. split; [done|]. lia. }
      right. rewrite Hcell. simpl. repeat split; (done || lia).
Qed.

(** A busy block is never written by later calls of [malloc]. *)
Lemma busy_block_stable (total : Z) (s s' : State) (l : list Z) (b : Z) :
  heap_shape total s l ->
  b ∈ l ->
  Block.free (cell (mem s) b) = false ->
  malloc_steps s s' ->
  exists l', heap_shape total s' l' /\ b ∈ l'
             /\ cell (mem s') b = cell (mem s) b.
Proof.
  intros Hshape Hb Hbusy Hsteps. revert l Hshape Hb Hbusy.
  induction Hsteps as [s|s n sz p s1 s2 Hsz Hrun _ IH];
    intros l Hshape Hb Hbusy.
  - exists l. done.
  - destruct (malloc_step total s s1 l n sz p Hshape (proj1 Hsz) Hrun)
      as (l1 & Hshape1 & _ & Hincl & Hkeep & _).
    specialize (Hkeep b Hb Hbusy).
    destruct (IH l1 Hshape1 (Hincl b Hb)) as (l2 & Hshape2 & Hb2 & E).
    + congruence.
    + exists l2. split; [done|]. split; [done|]. congruence.
Qed.

(** Free blocks never grow under calls of [malloc]. *)
Lemma small_free_stable (total : Z) (s s' : State) (l : list Z) (k : Z) :
  heap_shape total s l ->
  (forall b, b ∈ l -> Block.free (cell (mem s) b) = true ->
             Block.size (cell (mem s) b) < k) ->
  malloc_steps s s' ->
  exists l',
    heap_shape total s' l'
    /\ forall b, b ∈ l' -> Block.free (cell (mem s') b) = true ->
                 Block.size (cell (mem s') b) < k.
Proof.
  intros Hshape Hsmall Hsteps. revert l Hshape Hsmall.
  induction Hsteps as [s|s n sz p s1 s2 Hsz Hrun _ IH];
    intros l Hshape Hsmall.
  - exists l. done.
  - destruct (malloc_step total s s1 l n sz p Hshape (proj1 Hsz) Hrun)
      as (l1 & Hshape1 & _ & _ & _ & Hshrink & _).
    apply (IH l1 Hshape1).
    intros b Hb Hbf. destruct (Hshrink b Hb Hbf) as (b0 & Hb0 & Hb0f & Hle).
    specialize (Hsmall b0 Hb0 Hb0f). lia.
Qed.

Lemma free_bytes_app (m : gmap Z Block.t) (l1 l2 : list Z) :
  free_bytes m (l1 ++ l2) = free_bytes m l1 + free_bytes m l2.
Proof.
  unfold free_bytes. induction l1 as [|b l1 IH]; simpl; [done|].
  rewrite IH. lia.
Qed.

Lemma free_bytes_frame (m m' : gmap Z Block.t) (l : list Z) :
  (forall b, b ∈ l -> cell m' b = cell m b) ->
  free_bytes m' l = free_bytes m l.
Proof.
  unfold free_bytes. induction l as [|b l IH]; intros Hag; simpl; [done|].
  rewrite Hag by (apply elem_of_cons; by left).
  rewrite IH; [done|]. intros x Hx. apply Hag. apply elem_of_cons. by right.
Qed.

(** X1.  In a well-shaped heap, the [sz] bytes behind a pointer returned
    by [malloc] lie inside the mapping, after the first header, and share
    no byte with the header of any block of the heap. *)
Theorem malloc_payload_in_region (total : Z) (s s' : State) (l : list Z)
        (n : nat) (sz p : Z) :
  heap_shape total s l ->
  0 <= sz ->
  malloc n sz s = Done p s' ->
  p <> NULL ->
  Heap.head (heap s) + sizeof_Block <= p
  /\ p + sz <= Heap.head (heap s) + total
  /\ exists l',
       heap_shape total s' l'
       /\ forall b, b ∈ l' -> b + sizeof_Block <= p \/ p + sz <= b.
Proof.
  intros Hshape Hsz Hrun Hp.
  pose proof Hshape as (_ & _ & _ & Hg).
  destruct (malloc_step total s s' l n sz p Hshape Hsz Hrun)
    as (l' & Hshape' & Hh & Hincl & _ & _ & [(-> & _)|Hgot]); [done|].
  destruct Hgot as (_ & Hr & _ & _ & Hfit & Hle).
  destruct (seg_bounds _ _ _ _ _ Hg Hr) as (Hlo & _ & Hhi).
  split; [lia|]. split; [lia|].
  exists l'. split; [done|].
  intros b Hb.
  pose proof Hshape' as (_ & _ & _ & Hg').
  destruct (decide (b = p - sizeof_Block)) as [->|Hne]; [left; lia|].
  destruct (seg_bounds _ _ _ _ _ Hg' Hb) as (_ & Hb0 & _).
  destruct (seg_disjoint _ _ _ _ _ _ Hg' Hb (Hincl _ Hr) Hne); [left|right];
    lia.
Qed.

(** X2.  A block handed out by [malloc] is never touched again: after any
    further calls of [malloc] it is still in the block list, busy, with
    the header it had when it was returned, and large enough for the
    request. *)
Theorem allocation_is_stable (total : Z) (s s1 s2 : State) (l : list Z)
        (n : nat) (sz p : Z) :
  heap_shape total s l ->
  0 <= sz ->
  malloc n sz s = Done p s1 ->
  p <> NULL ->
  malloc_steps s1 s2 ->
  exists l2,
    heap_shape total s2 l2
    /\ p - sizeof_Block ∈ l2
    /\ cell (mem s2) (p - sizeof_Block) = cell (mem s1) (p - sizeof_Block)
    /\ Block.free (cell (mem s2) (p - sizeof_Block)) = false
    /\ sz <= Block.size (cell (mem s2) (p - sizeof_Block)).
Proof.
  intros Hshape Hsz Hrun Hp Hsteps.
  destruct (malloc_step total s s1 l n sz p Hshape Hsz Hrun)
    as (l1 & Hshape1 & _ & Hincl & _ & _ & [(-> & _)|Hgot]); [done|].
  destruct Hgot as (_ & Hr & _ & Hbusy & Hfit & _).
  destruct (busy_block_stable total s1 s2 l1 _ Hshape1 (Hincl _ Hr)
              Hbusy Hsteps) as (l2 & Hshape2 & Hr2 & E).
  exists l2. rewrite E. done.
Qed.

(** X3.  Two pointers returned by [malloc], with any number of calls in
    between, are different, and the bytes requested behind them do not
    overlap. *)
Theorem allocations_never_overlap (total : Z) (s0 s1 s2 s3 : State)
        (l0 : list Z) (n1 n2 : nat) (sz1 sz2 p1 p2 : Z) :
  heap_shape total s0 l0 ->
  0 <= sz1 -> 0 <= sz2 ->
  malloc n1 sz1 s0 = Done p1 s1 ->
  p1 <> NULL ->
  malloc_steps s1 s2 ->
  malloc n2 sz2 s2 = Done p2 s3 ->
  p2 <> NULL ->
  p1 <> p2 /\ (p1 + sz1 <= p2 \/ p2 + sz2 <= p1).
Proof.
  intros Hshape Hsz1 Hsz2 Hrun1 Hp1 Hsteps Hrun2 Hp2.
  destruct (malloc_step total s0 s1 l0 n1 sz1 p1 Hshape Hsz1 Hrun1)
    as (l1 & Hshape1 & _ & Hincl & _ & _ & [(-> & _)|Hgot1]); [done|].
  destruct Hgot1 as (_ & Hr1 & _ & Hbusy1 & Hfit1 & _).
  destruct (busy_block_stable total s1 s2 l1 _ Hshape1 (Hincl _ Hr1)
              Hbusy1 Hsteps) as (l2 & Hshape2 & Hr12 & E).
  destruct (malloc_step total s2 s3 l2 n2 sz2 p2 Hshape2 Hsz2 Hrun2)
    as (l3 & _ & _ & _ & _ & _ & [(-> & _)|Hgot2]); [done|].
  destruct Hgot2 as (_ & Hr2 & Hfree2 & _ & Hfit2 & Hle2).
  pose proof Hshape2 as (_ & _ & _ & Hg2).
  assert (p1 - sizeof_Block <> p2 - sizeof_Block) as Hne.
  { intros Heq. rewrite <- Heq, E in Hfree2. congruence. }
  split; [lia|].
  rewrite <- E in Hfit1.
  destruct (seg_disjoint _ _ _ _ _ _ Hg2 Hr12 Hr2 Hne); [left|right]; lia.
Qed.

(** X4.  Nothing is ever given back: once [malloc(k)] has returned [NULL],
    every later call of [malloc] for [k] bytes or more returns [NULL] and
    leaves the state as it is. *)
Theorem exhaustion_is_permanent (total : Z) (s s0 s' s'' : State)
        (l : list Z) (n n' : nat) (k sz p : Z) :
  heap_shape total s l ->
  0 <= k ->
  malloc n k s = Done NULL s0 ->
  malloc_steps s s' ->
  k <= sz ->
  malloc n' sz s' = Done p s'' ->
  p = NULL /\ s'' = s'.
Proof.
  intros Hshape Hk Hfail Hsteps Hsz Hrun.
  assert (forall b, b ∈ l -> Block.free (cell (mem s) b) = true ->
                    Block.size (cell (mem s) b) < k) as Hsmall.
  { destruct (malloc_step total s s0 l n k NULL Hshape Hk Hfail)
      as (_ & _ & _ & _ & _ & _ & [(_ & _ & Hall)|(Hnn & _)]); [|done].
    intros b Hb Hbf. specialize (Hall b Hb). unfold fits in Hall.
    rewrite Hbf in Hall. simpl in Hall. by apply Z.leb_gt in Hall. }
  destruct (small_free_stable total s s' l k Hshape Hsmall Hsteps)
    as (l' & Hshape' & Hsmall').
  destruct (malloc_step total s' s'' l' n' sz p Hshape' ltac:(lia) Hrun)
    as (_ & _ & _ & _ & _ & _ & [(-> & -> & _)|Hgot]); [done|].
  destruct Hgot as (_ & Hr & Hfree & _ & Hfit & Hle).
  specialize (Hsmall' _ Hr Hfree). lia.
Qed.

(** X5.  In a well-shaped heap a successful [malloc(sz)] lowers the free
    payload bytes of the heap by at least [sz] and by at most
    [sz + sizeof(Block) + MIN_BLOCK_SIZE]. *)
Theorem malloc_cost_is_bounded (total : Z) (s s' : State) (l : list Z)
        (n : nat) (sz p : Z) :
  heap_shape total s l ->
  0 <= sz ->
  malloc n sz s = Done p s' ->
  p <> NULL ->
  exists l',
    heap_shape total s' l'
    /\ sz <= free_bytes (mem s) l - free_bytes (mem s') l'
          <= sz + sizeof_Block + MIN_BLOCK_SIZE.
Proof.
  clear mmap.
  intros Hshape Hsz Hrun Hp.
  pose proof Hshape as (_ & _ & Hc & Hg).
  pose proof MIN_BLOCK_SIZE_nonneg as Hmin.
  destruct (malloc_shape total s s' l n sz p Hshape Hsz Hrun)
    as [(_ & -> & _)
       |(r & l1 & l2 & Hr & Hl & Hl1 & Hfree & Hpeq & _ & _ & _ & Hcase)];
    [done|].
  assert (r ∈ l) as Hin.
  { rewrite Hl. apply elem_of_app. right. apply elem_of_cons. by left. }
  assert (first_fit (mem s) sz l <> NULL) as Hnn.
  { rewrite <- Hr. eapply lseg_nonnull; [exact Hc|exact Hin]. }
  destruct (malloc_frame total s s' l n sz _ Hshape Hsz Hrun Hnn)
    as (Hsplit & Hkeep).
  rewrite <- Hr in Hsplit, Hkeep.
  assert (sz <= Block.size (cell (mem s) r)) as Hfit.
  { destruct (malloc_step total s s' l n sz p Hshape Hsz Hrun)
      as (_ & _ & _ & _ & _ & _ & [(-> & _)|Hgot]); [done|].
    destruct Hgot as (_ & _ & _ & _ & H1 & H2).
    rewrite Hpeq in H1, H2.
    replace (r + sizeof_Block - sizeof_Block) with r in H1, H2 by lia.
    lia. }
  assert (forall b, b ∈ l1 ++ l2 -> b ∈ l /\ b <> r) as Hrest.
  { intros b Hb. rewrite Hl in Hg.
    destruct (seg_apart _ _ _ _ _ _ Hg) as (Hbefore & Hafter).
    assert (b ∈ l) as Hbl.
    { rewrite Hl. revert Hb. rewrite !elem_of_app, elem_of_cons. tauto. }
    split; [done|].
    rewrite <- Hl in Hg.
    destruct (seg_bounds _ _ _ _ _ Hg Hbl) as (_ & Hb0 & _).
    destruct (seg_bounds _ _ _ _ _ Hg Hin) as (_ & Hr0 & _).
    apply elem_of_app in Hb as [Hb|Hb].
    - specialize (Hbefore b Hb). lia.
    - specialize (Hafter b Hb). lia. }
  assert (free_bytes (mem s) l
          = free_bytes (mem s) l1
            + (Block.size (cell (mem s) r) + free_bytes (mem s) l2)) as Hfb.
  { rewrite Hl at 1. rewrite free_bytes_app.
    change (free_bytes (mem s) (r :: l2))
      with ((if Block.free (cell (mem s) r)
             then Block.size (cell (mem s) r) else 0)
            + free_bytes (mem s) l2).
    by rewrite Hfree. }
  rewrite Hfb.
  destruct Hcase as [(Hbig & Hshape' & Hcell)|(Hsmall & Hshape' & Hcell)].
  - destruct (Hsplit Hbig) as (Hnew & Hfr).
    exists (l1 ++ r :: (r + sizeof_Block + sz) :: l2). split; [done|].
    assert (forall b, b ∈ l1 ++ l2 -> cell (mem s') b = cell (mem s) b) as Hag.
    { intros b Hb. destruct (Hrest b Hb) as (Hbl & Hbr).
      apply Hfr; [done|].
      destruct (seg_bounds _ _ _ _ _ Hg Hbl) as (_ & Hb0 & _).
      destruct (seg_disjoint _ _ _ _ _ _ Hg Hbl Hin Hbr); lia. }
    rewrite free_bytes_app.
    change (free_bytes (mem s') (r :: (r + sizeof_Block + sz) :: l2))
      with ((if Block.free (cell (mem s') r)
             then Block.size (cell (mem s') r) else 0)
            + ((if Block.free (cell (mem s') (r + sizeof_Block + sz))
                then Block.size (cell (mem s') (r + sizeof_Block + sz))
                else 0)
               + free_bytes (mem s') l2)).
    rewrite Hcell, Hnew. simpl.
    rewrite (free_bytes_frame (mem s) (mem s') l1)
      by (intros b Hb; apply Hag, elem_of_app; by left).
    rewrite (free_bytes_frame (mem s) (mem s') l2)
      by (intros b Hb; apply Hag, elem_of_app; by right).
    lia.
  - exists l. split; [done|].
    rewrite Hl. rewrite free_bytes_app.
    change (free_bytes (mem s') (r :: l2))
      with ((if Block.free (cell (mem s') r)
             then Block.size (cell (mem s') r) else 0)
            + free_bytes (mem s') l2).
    rewrite Hcell. simpl.
    rewrite (free_bytes_frame (mem s) (mem s') l1).
    + rewrite (free_bytes_frame (mem s) (mem s') l2).
      * lia.
      * intros b Hb. apply (Hkeep Hsmall).
        apply Hrest, elem_of_app. by right.
    + intros b Hb. apply (Hkeep Hsmall). apply Hrest, elem_of_app. by left.
Qed.

(** *** Running [malloc] forward *)

Lemma first_fit_app (m : gmap Z Block.t) (sz r : Z) (l1 l2 : list Z) :
  (forall b, b ∈ l1 -> fits m sz b = false) ->
  fits m sz r = true ->
  first_fit m sz (l1 ++ r :: l2) = r.
Proof.
  intros Hl1 Hr. unfold first_fit.
  induction l1 as [|b l1 IH]; simpl.
  - by rewrite Hr.
  - rewrite (Hl1 b) by (apply elem_of_cons; by left).
    apply IH. intros x Hx. apply Hl1. apply elem_of_cons. by right.
Qed.

(** A list without repetition splits around one of its elements in one
    way only. *)
Lemma app_cons_unique (r : Z) (l1 l2 l1' l2' : list Z) :
  NoDup (l1 ++ r :: l2) ->
  l1 ++ r :: l2 = l1' ++ r :: l2' ->
  l1 = l1' /\ l2 = l2'.
Proof.
  revert l1'. induction l1 as [|a l1 IH]; intros [|a' l1'] Hnd E;
    simpl in *.
  - by injection E as <-.
  - injection E as <- ->. apply NoDup_cons in Hnd as [Hnotin _].
    exfalso. apply Hnotin. apply elem_of_app. right. apply elem_of_cons.
    by left.
  - injection E as -> <-. apply NoDup_cons in Hnd as [Hnotin _].
    exfalso. apply Hnotin. apply elem_of_app. right. apply elem_of_cons.
    by left.
  - injection E as <- E. apply NoDup_cons in Hnd as [_ Hnd].
    destruct (IH l1' Hnd E) as [-> ->]. done.
Qed.

(** [malloc] on a well-shaped heap whose first free block is large enough
    to split: the state it returns, header by header. *)
Lemma malloc_split_run (total : Z) (s : State) (l1 l2 : list Z)
      (r : Z) (n : nat) (sz : Z) :
  heap_shape total s (l1 ++ r :: l2) ->
  (length (l1 ++ r :: l2) <= n)%nat ->
  0 <= sz ->
  (forall b, b ∈ l1 -> Block.free (cell (mem s) b) = false) ->
  Block.free (cell (mem s) r) = true ->
  sz + sizeof_Block + MIN_BLOCK_SIZE <= Block.size (cell (mem s) r) ->
  exists s',
    malloc n sz s = Done (r + sizeof_Block) s'
    /\ heap s' = heap s /\ stdout s' = stdout s
    /\ heap_shape total s' (l1 ++ r :: (r + sizeof_Block + sz) :: l2)
    /\ cell (mem s') r = Block.mk sz false (r + sizeof_Block + sz)
    /\ cell (mem s') (r + sizeof_Block + sz)
       = Block.mk (Block.size (cell (mem s) r) - sizeof_Block - sz) true
           (Block.next (cell (mem s) r))
    /\ forall x, x <> r -> x <> r + sizeof_Block + sz ->
                 cell (mem s') x = cell (mem s) x.
Proof.
  intros Hshape Hn Hsz Hbusy Hfree Hbig.
  pose proof Hshape as (_ & _ & Hc & Hg).
  pose proof MIN_BLOCK_SIZE_nonneg as Hmin.
  assert (first_fit (mem s) sz (l1 ++ r :: l2) = r) as Hff.
  { apply first_fit_app.
    - intros b Hb. unfold fits. by rewrite (Hbusy b Hb).
    - unfold fits. rewrite Hfree. simpl. apply Z.leb_le. lia. }
  destruct (malloc_returns s _ n sz Hc Hn) as (p & s' & Hrun).
  exists s'.
  destruct (malloc_shape total s s' _ n sz p Hshape Hsz Hrun)
    as [(E & _)
       |(r' & l1' & l2' & Hr' & Hl & _ & _ & -> & _ & Hh & Ho & Hcase)].
  { exfalso. rewrite Hff in E. subst r.
    eapply (lseg_nonnull _ _ _ _ NULL Hc); [|done].
    apply elem_of_app. right. apply elem_of_cons. by left. }
  rewrite Hff in Hr'. subst r'.
  destruct (app_cons_unique r l1 l2 l1' l2' (seg_NoDup _ _ _ _ Hg) Hl)
    as [<- <-].
  assert (r <> NULL) as Hnn.
  { eapply (lseg_nonnull _ _ _ _ r Hc).
    apply elem_of_app. right. apply elem_of_cons. by left. }
  rewrite <- Hff in Hnn.
  destruct (malloc_frame total s s' _ n sz _ Hshape Hsz Hrun Hnn)
    as (Hsplit & _).
  rewrite Hff in Hsplit. destruct (Hsplit Hbig) as (Hnew & Hfr).
  destruct Hcase as [(_ & Hshape' & Hcell)|(Hsmall & _)]; [|lia].
  done.
Qed.

(** *** Outside the preconditions *)

Lemma wrap_add_modulus (z : Z) : wrap (z + modulus) = wrap z.
Proof.
  unfold wrap. rewrite <- (Z_mod_plus_full z 1 modulus).
  by rewrite Z.mul_1_l.
Qed.

(** A walk that reaches a block whose [next] is the block itself exceeds
    every bound. *)
Lemma print_loop_self (k : nat) :
  forall (s : State) (p : Z),
    p <> NULL -> Block.next (cell (mem s) p) = p ->
    print_loop k p s = OutOfFuel.
Proof.
  induction k as [|k IH]; intros s p Hp Hself; simpl;
    apply Z.eqb_neq in Hp as Hp'; rewrite Hp'; [done|].
  unfold bind, load_free, load_size, load_next, printf. simpl.
  rewrite Hself. by apply IH.
Qed.

Lemma find_loop_self (k : nat) (sz : Z) :
  forall (s : State) (p : Z),
    p <> NULL -> Block.free (cell (mem s) p) = false ->
    Block.next (cell (mem s) p) = p ->
    find_loop k sz p s = OutOfFuel.
Proof.
  induction k as [|k IH]; intros s p Hp Hbusy Hself; simpl;
    apply Z.eqb_neq in Hp as Hp'; rewrite Hp'; [done|].
  unfold bind, load_free, load_next, ret. rewrite Hbusy, Hself.
  by apply IH.
Qed.


(** X7.  After [init_heap] with fewer bytes than one header, the call
    [malloc(-sizeof(Block))] (in [size_t]) finds the one block, whose
    recorded size has wrapped, passes the split test because the sum
    wraps, and writes the new header over the block's own: the block ends
    up busy with [next] pointing to itself.  From then on no heap walk
    ends within any bound: neither [print_heap] nor [malloc] returns. *)
Theorem undersized_heap_never_terminates (total : Z) (s0 s1 s2 : State)
        (n : nat) (p : Z) :
  0 <= total < sizeof_Block ->
  0 < mmap total < modulus ->
  sizeof_Block + MIN_BLOCK_SIZE <= modulus ->
  init_heap total s0 = Done tt s1 ->
  malloc n (modulus - sizeof_Block) s1 = Done p s2 ->
  p = wrap (mmap total + sizeof_Block)
  /\ heap s2 = Heap.mk (mmap total) total
  /\ cell (mem s2) (mmap total)
     = Block.mk (modulus - sizeof_Block) false (mmap total)
  /\ (forall k, print_heap k (heap s2) s2 = OutOfFuel)
  /\ (forall k sz, malloc k sz s2 = OutOfFuel).
Proof.
  intros Htot Hbase Hroom Hinit Hrun.
  pose proof MIN_BLOCK_SIZE_nonneg as Hmin.
  destruct (init_heap_cells total s0) as (s1' & E & Hh & _ & Hc & _).
  rewrite E in Hinit. injection Hinit as ->.
  rewrite wrap_neg in Hc by lia.
  set (base := mmap total) in *.
  assert (chain (mem s1) (Heap.head (heap s1)) [base]) as Hchain.
  { unfold chain. rewrite Hh. simpl. rewrite Hc. unfold NULL. simpl.
    repeat split; lia. }
  assert (first_fit (mem s1) (modulus - sizeof_Block) [base] = base) as Hff.
  { apply (first_fit_app _ _ base [] []).
    - intros b Hb. by apply elem_of_nil in Hb.
    - unfold fits. rewrite Hc. simpl. apply Z.leb_le. lia. }
  assert (find_free_block n (modulus - sizeof_Block) s1 = Done base s1)
    as Hfind.
  { unfold malloc, bind in Hrun.
    destruct (find_free_block n (modulus - sizeof_Block) s1)
      as [r sx|] eqn:Ef; [|done].
    destruct (find_free_block_done _ _ _ _ _ _ Hchain Ef) as [-> ->].
    by rewrite Hff. }
  rewrite (malloc_after_find _ _ _ _ Hfind) in Hrun.
  assert ((base =? NULL) = false) as Hnn by (apply Z.eqb_neq; unfold NULL; lia).
  rewrite Hnn in Hrun.
  assert (wrap (modulus - sizeof_Block + sizeof_Block + MIN_BLOCK_SIZE)
          = MIN_BLOCK_SIZE) as Hsum.
  { replace (modulus - sizeof_Block + sizeof_Block + MIN_BLOCK_SIZE)
      with (MIN_BLOCK_SIZE + modulus) by lia.
    rewrite wrap_add_modulus. apply wrap_small. lia. }
  assert (wrap (base + sizeof_Block + (modulus - sizeof_Block)) = base)
    as Hnew.
  { replace (base + sizeof_Block + (modulus - sizeof_Block))
      with (base + modulus) by lia.
    rewrite wrap_add_modulus. apply wrap_small. lia. }
  unfold bind at 1, load_size in Hrun. rewrite Hsum, Hc in Hrun.
  simpl in Hrun.
  assert ((MIN_BLOCK_SIZE <=? total - sizeof_Block + modulus) = true) as Hguard
    by (apply Z.leb_le; lia).
  rewrite Hguard in Hrun.
  unfold split_block, bind, load_size, load_next, store_size, store_free,
    store_next, upd_mem, ret in Hrun.
  rewrite Hnew in Hrun. simpl in Hrun.
  injection Hrun as <- <-. simpl.
  rewrite !cell_insert_eq. simpl.
  split; [done|]. split; [done|]. split; [done|].
  split.
  - intros k. unfold print_heap. rewrite Hh. simpl.
    apply print_loop_self; simpl.
    + unfold NULL. lia.
    + by rewrite !cell_insert_eq.
  - intros k sz. unfold malloc, find_free_block, bind, get_heap. simpl.
    rewrite Hh. simpl. rewrite find_loop_self; [done|..]; simpl.
    + unfold NULL. lia.
    + by rewrite !cell_insert_eq.
    + by rewrite !cell_insert_eq.
Qed.

(** *** On any state at all *)

(** The search loop only reads, whatever the memory holds. *)
Lemma find_loop_pure (n : nat) (sz : Z) :
  forall (p : Z) (s s' : State) (r : Z),
    find_loop n sz p s = Done r s' ->
    s' = s
    /\ (r = NULL
        \/ (Block.free (cell (mem s) r) = true
            /\ sz <= Block.size (cell (mem s) r))).
Proof.
  induction n as [|n IH]; intros p s s' r; simpl;
    destruct (p =? NULL) eqn:Hp.
  - intros [= <- <-]. auto.
  - done.
  - intros [= <- <-]. auto.
  - unfold bind, load_free, load_size, load_next, ret.
    destruct (Block.free (cell (mem s) p)) eqn:Hfree.
    + destruct (sz <=? Block.size (cell (mem s) p)) eqn:Hle.
      * intros [= <- <-]. apply Z.leb_le in Hle. auto.
      * apply IH.
    + apply IH.
Qed.

Lemma split_block_frame (s : State) (block left_size : Z) :
  exists s',
    split_block block left_size s = Done tt s'
    /\ heap s' = heap s /\ stdout s' = stdout s
    /\ forall x, x <> block ->
                 x <> wrap (block + sizeof_Block + left_size) ->
                 cell (mem s') x = cell (mem s) x.
Proof.
  eexists. split; [reflexivity|]. simpl. repeat split.
  intros x Hx1 Hx2. rewrite !cell_insert.
  repeat case_decide; simpl; congruence.
Qed.


(** *** Termination *)

Lemma seg_length (m : gmap Z Block.t) (l : list Z) (a e : Z) :
  seg m a l e -> Z.of_nat (length l) * sizeof_Block <= e - a.
Proof.
  revert a. induction l as [|b l IH]; intros a.
  - simpl. intros ->. lia.
  - intros (_ & Hs & H). apply IH in H.
    change (length (b :: l)) with (S (length l)). lia.
Qed.


(** *** The driver *)

Variable sizeof_int : Z.

Local Abbreviation main := (main word_bits sizeof_Block mmap sizeof_int).


End Properties.

(** A block whose [next] is the block itself is on no finite list. *)
Lemma lseg_self_loop (m : gmap Z Block.t) (p : Z) (l : list Z) :
  Block.next (cell m p) = p -> p <> NULL -> ~ lseg m p l NULL.
Proof.
  intros Hself Hp. induction l as [|b l IH]; simpl.
  - done.
  - intros (_ & _ & H). rewrite Hself in H. by apply IH.
Qed.

(** ** The properties on concrete heaps *)

Ltac evaluate := vm_compute; repeat split; try discriminate; try reflexivity.

Lemma LP64_word_bits : 0 <= LP64.word_bits.
Proof. evaluate. Defined.

Lemma LP64_header_fits :
  0 < LP64.sizeof_Block < modulus LP64.word_bits.
Proof. evaluate. Defined.

Lemma fresh_chain :
  chain (mem LP64.fresh) (Heap.head (heap LP64.fresh)) [4096].
Proof. evaluate. Defined.

Lemma fresh_shape :
  heap_shape LP64.word_bits LP64.sizeof_Block 65536 LP64.fresh [4096].
Proof. evaluate. Defined.

Lemma three_free_chain :
  chain (mem LP64.three_free) (Heap.head (heap LP64.three_free))
    [4096; 4136; 4168; 8288].
Proof. evaluate. Defined.

Lemma two_allocs_reachable :
  reachable LP64.word_bits LP64.sizeof_Block LP64.mmap_page 65536
    LP64.two_allocs.
Proof.
  apply (reach_malloc _ _ _ _ LP64.one_alloc 2%nat 4 4148 _).
  - apply (reach_malloc _ _ _ _ LP64.fresh 1%nat 4 4120 _).
    + apply (reach_init _ _ _ _ LP64.blank). evaluate.
    + evaluate.
    + evaluate.
  - evaluate.
  - evaluate.
Defined.

(** [malloc_contract] on [init_heap(0x10000); malloc(4)]. *)
Lemma malloc_contract_witness :
  chain (mem LP64.fresh) (Heap.head (heap LP64.fresh)) [4096]
  /\ (length [4096%Z] <= 1)%nat
  /\ exists r,
       find_free_block 1 4 LP64.fresh = Done r LP64.fresh
       /\ (r <> NULL ->
           exists s',
             malloc LP64.word_bits LP64.sizeof_Block 1 4 LP64.fresh
             = Done (wrap LP64.word_bits (r + LP64.sizeof_Block)) s'
             /\ Block.free (cell (mem s') r) = false).
Proof.
  split; [exact fresh_chain|]. split; [simpl; lia|].
  destruct (malloc_contract LP64.word_bits LP64.sizeof_Block LP64.fresh
              [4096] 1%nat 4 fresh_chain ltac:(simpl; lia))
    as (r & Hfind & _ & Hfound).
  exists r. split; [exact Hfind|].
  intros Hr. destruct (Hfound Hr) as (s' & Hrun & _ & Hbusy & _).
  exists s'. split; [exact Hrun|exact Hbusy].
Defined.

(** [malloc] of the whole payload of a fresh heap: the block is found, is
    not split, becomes busy, and is exactly as large as the request. *)
Lemma malloc_exact_fit_not_larger :
  find_free_block 1 65512 LP64.fresh = Done 4096 LP64.fresh
  /\ malloc LP64.word_bits LP64.sizeof_Block 1 65512 LP64.fresh
     = Done 4120 LP64.exact_fit
  /\ cell (mem LP64.exact_fit) 4096 = Block.mk 65512 false NULL
  /\ ~ (65512 < Block.size (cell (mem LP64.exact_fit) 4096)).
Proof. evaluate. Defined.

(** [find_free_block_first_fit] on free blocks of sizes 16, 4096, 32. *)
Lemma find_free_block_first_fit_witness :
  chain (mem LP64.three_free) (Heap.head (heap LP64.three_free))
    [4096; 4136; 4168; 8288]
  /\ (length [4096%Z; 4136%Z; 4168%Z; 8288%Z] <= 4)%nat
  /\ free_sizes (mem LP64.three_free) [4096; 4136; 4168; 8288]
     = [16; 4096; 32]
  /\ exists r,
       find_free_block 4 20 LP64.three_free = Done r LP64.three_free
       /\ Block.size (cell (mem LP64.three_free) r) = 4096.
Proof.
  split; [exact three_free_chain|]. split; [simpl; lia|].
  split; [vm_compute; reflexivity|].
  destruct (find_free_block_first_fit LP64.three_free
              [4096; 4136; 4168; 8288] 4%nat 20
              three_free_chain ltac:(simpl; lia))
    as (r & Hfind & _ & Hsizes).
  exists r. split; [exact Hfind|].
  apply Hsizes; [reflexivity|vm_compute; reflexivity].
Defined.

(** [split_block_partitions] on the block of a fresh heap, split at 4. *)
Lemma split_block_partitions_witness :
  Block.free (cell (mem LP64.fresh) 4096) = true
  /\ 4 + LP64.sizeof_Block + MIN_BLOCK_SIZE LP64.word_bits
     <= Block.size (cell (mem LP64.fresh) 4096)
  /\ exists s' new_block,
       split_block LP64.word_bits LP64.sizeof_Block 4096 4 LP64.fresh
       = Done tt s'
       /\ new_block <> 4096
       /\ Block.size (cell (mem s') 4096) = 4
       /\ Block.next (cell (mem s') 4096) = new_block
       /\ Block.free (cell (mem s') new_block) = true.
Proof.
  split; [vm_compute; reflexivity|]. split; [evaluate|].
  destruct (split_block_partitions LP64.word_bits LP64.sizeof_Block
              LP64_word_bits LP64_header_fits LP64.fresh 4096 4)
    as (s' & new_block & Hrun & _ & Hne & _ & Hsize & Hnext & _ & _
        & Hfree & _); [evaluate..|].
  exists s', new_block. repeat split; assumption.
Defined.

(** [init_heap(8)]: the one block accounts for [2^64 + 8] bytes. *)
Lemma coverage_fails_below_header :
  reachable LP64.word_bits LP64.sizeof_Block LP64.mmap_page 8 LP64.tiny
  /\ mapping_ok LP64.word_bits (LP64.mmap_page 8) 8
  /\ ~ exists l,
         chain (mem LP64.tiny) (Heap.head (heap LP64.tiny)) l
         /\ coverage LP64.sizeof_Block (mem LP64.tiny) l = 8.
Proof.
  split; [apply (reach_init _ _ _ _ LP64.blank); evaluate|].
  split; [evaluate|].
  intros (l & Hc & Hcov).
  assert (chain (mem LP64.tiny) (Heap.head (heap LP64.tiny)) [4096]) as H1
    by evaluate.
  rewrite (lseg_unique _ _ _ _ Hc H1) in Hcov.
  vm_compute in Hcov. discriminate Hcov.
Defined.

(** [coverage_invariant] after the two allocations of [main]. *)
Lemma coverage_invariant_witness :
  LP64.sizeof_Block <= 65536
  /\ mapping_ok LP64.word_bits (LP64.mmap_page 65536) 65536
  /\ exists l,
       chain (mem LP64.two_allocs) (Heap.head (heap LP64.two_allocs)) l
       /\ coverage LP64.sizeof_Block (mem LP64.two_allocs) l = 65536.
Proof.
  split; [evaluate|]. split; [evaluate|].
  apply (coverage_invariant LP64.word_bits LP64.sizeof_Block LP64.mmap_page
           LP64_word_bits LP64_header_fits 65536 LP64.two_allocs).
  - evaluate.
  - evaluate.
  - exact two_allocs_reachable.
Defined.

(** [init_heap(8); malloc((size_t)-24)]: the new header is the block's
    own, the block's [next] is the block itself, and no walk from [head]
    ever meets a block whose [next] is [NULL]. *)
Lemma contiguity_fails_below_header :
  reachable LP64.word_bits LP64.sizeof_Block LP64.mmap_page 8 LP64.looped
  /\ mapping_ok LP64.word_bits (LP64.mmap_page 8) 8
  /\ Heap.head (heap LP64.looped) = 4096
  /\ Block.next (cell (mem LP64.looped) 4096) = 4096
  /\ ~ exists l, chain (mem LP64.looped) (Heap.head (heap LP64.looped)) l.
Proof.
  split.
  { apply (reach_malloc _ _ _ _ LP64.tiny 1%nat (2 ^ 64 - 24) 4120 _).
    - apply (reach_init _ _ _ _ LP64.blank). evaluate.
    - evaluate.
    - evaluate. }
  split; [evaluate|]. split; [evaluate|]. split; [evaluate|].
  intros (l & Hc). revert Hc. apply lseg_self_loop; evaluate.
Defined.

(** [contiguity_invariant] after the two allocations of [main]. *)
Lemma contiguity_invariant_witness :
  LP64.sizeof_Block <= 65536
  /\ mapping_ok LP64.word_bits (LP64.mmap_page 65536) 65536
  /\ exists l t,
       chain (mem LP64.two_allocs) (Heap.head (heap LP64.two_allocs)) l
       /\ last l = Some t
       /\ forall b, b ∈ l ->
                    (Block.next (cell (mem LP64.two_allocs) b) = NULL
                     <-> b = t).
Proof.
  split; [evaluate|]. split; [evaluate|].
  destruct (contiguity_invariant LP64.word_bits LP64.sizeof_Block
              LP64.mmap_page LP64_word_bits LP64_header_fits 65536
              LP64.two_allocs)
    as (l & t & Hc & _ & Hlast & _ & Hterm).
  - evaluate.
  - evaluate.
  - exact two_allocs_reachable.
  - exists l, t. repeat split; try assumption; apply Hterm; assumption.
Defined.


(** [malloc_out_of_memory] on a fresh heap, one byte too many. *)
Lemma malloc_out_of_memory_witness :
  chain (mem LP64.fresh) (Heap.head (heap LP64.fresh)) [4096]
  /\ (length [4096%Z] <= 1)%nat
  /\ malloc LP64.word_bits LP64.sizeof_Block 1 65513 LP64.fresh
     = Done NULL LP64.fresh.
Proof.
  split; [exact fresh_chain|]. split; [simpl; lia|].
  apply (malloc_out_of_memory LP64.word_bits LP64.sizeof_Block LP64.fresh
           [4096] 1%nat 65513 fresh_chain ltac:(simpl; lia)).
  intros b Hb _. apply list_elem_of_singleton in Hb. subst b. evaluate.
Defined.


(** [malloc_zero_size] on a fresh heap. *)
Lemma malloc_zero_size_witness :
  heap_shape LP64.word_bits LP64.sizeof_Block 65536 LP64.fresh [4096]
  /\ (exists b, b ∈ [4096] /\ Block.free (cell (mem LP64.fresh) b) = true)
  /\ exists r s',
       malloc LP64.word_bits LP64.sizeof_Block 1 0 LP64.fresh
       = Done (r + LP64.sizeof_Block) s'
       /\ r + LP64.sizeof_Block <> NULL.
Proof.
  assert (exists b, b ∈ [4096]
                    /\ Block.free (cell (mem LP64.fresh) b) = true) as Hfree.
  { exists 4096. split; [apply list_elem_of_singleton; reflexivity|evaluate]. }
  split; [exact fresh_shape|]. split; [exact Hfree|].
  destruct (malloc_zero_size LP64.word_bits LP64.sizeof_Block
              LP64_word_bits LP64_header_fits 65536 LP64.fresh [4096] 1%nat
              ltac:(evaluate) fresh_shape ltac:(simpl; lia) Hfree)
    as (r & s' & Hrun & Hnn & _).
  exists r, s'. split; assumption.
Defined.


(** ** The further properties on concrete heaps *)

Lemma one_alloc_run :
  malloc LP64.word_bits LP64.sizeof_Block 1 4 LP64.fresh
  = Done 4120 LP64.one_alloc.
Proof. evaluate. Defined.

Lemma two_allocs_run :
  malloc LP64.word_bits LP64.sizeof_Block 2 4 LP64.one_alloc
  = Done 4148 LP64.two_allocs.
Proof. evaluate. Defined.

Lemma one_alloc_steps :
  malloc_steps LP64.word_bits LP64.sizeof_Block LP64.one_alloc
    LP64.two_allocs.
Proof.
  apply (steps_malloc _ _ _ 2%nat 4 4148 LP64.two_allocs).
  - evaluate.
  - exact two_allocs_run.
  - apply steps_done.
Defined.

Lemma fresh_steps :
  malloc_steps LP64.word_bits LP64.sizeof_Block LP64.fresh LP64.one_alloc.
Proof.
  apply (steps_malloc _ _ _ 1%nat 4 4120 LP64.one_alloc).
  - evaluate.
  - exact one_alloc_run.
  - apply steps_done.
Defined.

(** [malloc_payload_in_region] on the first allocation of [main]. *)
Lemma malloc_payload_in_region_witness :
  heap_shape LP64.word_bits LP64.sizeof_Block 65536 LP64.fresh [4096]
  /\ malloc LP64.word_bits LP64.sizeof_Block 1 4 LP64.fresh
     = Done 4120 LP64.one_alloc
  /\ Heap.head (heap LP64.fresh) + LP64.sizeof_Block <= 4120
  /\ 4120 + 4 <= Heap.head (heap LP64.fresh) + 65536.
Proof.
  split; [exact fresh_shape|]. split; [exact one_alloc_run|].
  destruct (malloc_payload_in_region LP64.word_bits LP64.sizeof_Block
              LP64_word_bits LP64_header_fits 65536 LP64.fresh LP64.one_alloc
              [4096] 1%nat 4 4120 fresh_shape ltac:(lia) one_alloc_run
              ltac:(evaluate))
    as (Hlo & Hhi & _).
  split; [exact Hlo|exact Hhi].
Defined.

(** [allocation_is_stable]: the first block of [main] after the second
    allocation. *)
Lemma allocation_is_stable_witness :
  malloc_steps LP64.word_bits LP64.sizeof_Block LP64.one_alloc
    LP64.two_allocs
  /\ exists l2,
       heap_shape LP64.word_bits LP64.sizeof_Block 65536 LP64.two_allocs l2
       /\ 4120 - LP64.sizeof_Block ∈ l2
       /\ Block.free (cell (mem LP64.two_allocs) (4120 - LP64.sizeof_Block))
          = false.
Proof.
  split; [exact one_alloc_steps|].
  destruct (allocation_is_stable LP64.word_bits LP64.sizeof_Block
              LP64_word_bits LP64_header_fits 65536 LP64.fresh LP64.one_alloc
              LP64.two_allocs [4096] 1%nat 4 4120 fresh_shape ltac:(lia)
              one_alloc_run ltac:(evaluate) one_alloc_steps)
    as (l2 & Hshape & Hin & _ & Hbusy & _).
  exists l2. split; [exact Hshape|]. split; [exact Hin|exact Hbusy].
Defined.

(** [allocations_never_overlap] on the two allocations of [main]. *)
Lemma allocations_never_overlap_witness :
  malloc LP64.word_bits LP64.sizeof_Block 1 4 LP64.fresh
  = Done 4120 LP64.one_alloc
  /\ malloc LP64.word_bits LP64.sizeof_Block 2 4 LP64.one_alloc
     = Done 4148 LP64.two_allocs
  /\ 4120 <> 4148
  /\ (4120 + 4 <= 4148 \/ 4148 + 4 <= 4120).
Proof.
  split; [exact one_alloc_run|]. split; [exact two_allocs_run|].
  apply (allocations_never_overlap LP64.word_bits LP64.sizeof_Block
           LP64_word_bits LP64_header_fits 65536 LP64.fresh LP64.one_alloc
           LP64.one_alloc LP64.two_allocs [4096] 1%nat 2%nat 4 4 4120 4148
           fresh_shape ltac:(lia) ltac:(lia) one_alloc_run ltac:(evaluate)
           (steps_done _ _ _) two_allocs_run ltac:(evaluate)).
Defined.

(** [exhaustion_is_permanent]: a request for more than the fresh heap
    holds fails, and a larger one still fails after an allocation. *)
Lemma exhaustion_is_permanent_witness :
  malloc LP64.word_bits LP64.sizeof_Block 1 65513 LP64.fresh
  = Done NULL LP64.fresh
  /\ malloc LP64.word_bits LP64.sizeof_Block 2 70000 LP64.one_alloc
     = Done NULL LP64.one_alloc
  /\ (NULL = NULL /\ LP64.one_alloc = LP64.one_alloc).
Proof.
  assert (malloc LP64.word_bits LP64.sizeof_Block 1 65513 LP64.fresh
          = Done NULL LP64.fresh) as Hfail by evaluate.
  assert (malloc LP64.word_bits LP64.sizeof_Block 2 70000 LP64.one_alloc
          = Done NULL LP64.one_alloc) as Hlater by evaluate.
  split; [exact Hfail|]. split; [exact Hlater|].
  apply (exhaustion_is_permanent LP64.word_bits LP64.sizeof_Block
           LP64_word_bits LP64_header_fits 65536 LP64.fresh LP64.fresh
           LP64.one_alloc LP64.one_alloc [4096] 1%nat 2%nat 65513 70000 NULL
           fresh_shape ltac:(lia) Hfail fresh_steps ltac:(lia) Hlater).
Defined.

(** [malloc_cost_is_bounded] on the first allocation of [main]. *)
Lemma malloc_cost_is_bounded_witness :
  malloc LP64.word_bits LP64.sizeof_Block 1 4 LP64.fresh
  = Done 4120 LP64.one_alloc
  /\ exists l',
       heap_shape LP64.word_bits LP64.sizeof_Block 65536 LP64.one_alloc l'
       /\ 4 <= free_bytes (mem LP64.fresh) [4096]
               - free_bytes (mem LP64.one_alloc) l'
            <= 4 + LP64.sizeof_Block + MIN_BLOCK_SIZE LP64.word_bits.
Proof.
  split; [exact one_alloc_run|].
  apply (malloc_cost_is_bounded LP64.word_bits LP64.sizeof_Block
           LP64_word_bits LP64_header_fits 65536 LP64.fresh LP64.one_alloc
           [4096] 1%nat 4 4120 fresh_shape ltac:(lia) one_alloc_run
           ltac:(evaluate)).
Defined.


(** [undersized_heap_never_terminates] on [init_heap(8)]. *)
Lemma undersized_heap_never_terminates_witness :
  init_heap LP64.word_bits LP64.sizeof_Block LP64.mmap_page 8 LP64.blank
  = Done tt LP64.tiny
  /\ malloc LP64.word_bits LP64.sizeof_Block 1
       (modulus LP64.word_bits - LP64.sizeof_Block) LP64.tiny
     = Done 4120 LP64.looped
  /\ (forall k, print_heap k (heap LP64.looped) LP64.looped = OutOfFuel)
  /\ (forall k sz,
        malloc LP64.word_bits LP64.sizeof_Block k sz LP64.looped = OutOfFuel).
Proof.
  assert (init_heap LP64.word_bits LP64.sizeof_Block LP64.mmap_page 8
            LP64.blank = Done tt LP64.tiny) as Hinit by evaluate.
  assert (malloc LP64.word_bits LP64.sizeof_Block 1
            (modulus LP64.word_bits - LP64.sizeof_Block) LP64.tiny
          = Done 4120 LP64.looped) as Hrun by evaluate.
  split; [exact Hinit|]. split; [exact Hrun|].
  destruct (undersized_heap_never_terminates LP64.word_bits
              LP64.sizeof_Block LP64.mmap_page LP64_word_bits
              LP64_header_fits 8 LP64.blank LP64.tiny LP64.looped 1%nat 4120
              ltac:(evaluate) ltac:(evaluate) ltac:(evaluate) Hinit Hrun)
    as (_ & _ & _ & Hprint & Hmalloc).
  split; [exact Hprint|exact Hmalloc].
Defined.



